(** * The instance event bus and the listener reconciler

    A shallow embedding of
      - [src/core/vdom/helpers/update-listeners.js]
        ([normalizeEvent], [createFnInvoker], [updateListeners]) and
      - [src/core/instance/events.js]
        ([initEvents], [add], [remove], [createOnceHandler],
         [updateComponentListeners], [$on], [$once], [$off], [$emit]).

    JavaScript function objects and arrays have identity and mutable
    properties, so they live in an explicit heap; every operation is a
    state transformer that may finish, raise a JavaScript exception, or
    (for calls into callbacks, which can re-enter the bus) run out of
    fuel. *)

From Stdlib Require Import String Ascii List ZArith Lia Bool.
From stdpp Require Import base option list gmap strings.

Open Scope string_scope.

(** ** Values, objects and the heap *)

(** The component instance whose bus is modelled ([vm]).  A nullable
    reference to it is an [option component]. *)
Inductive component := Vm.

(** Identity of a heap object (a function or an array). *)
Definition ref := nat.

Inductive value :=
| VUndef
| VNull
| VBool (b : bool)
| VNum (n : Z)
| VStr (s : string)
| VObj (r : ref).

(** First argument of [$on] / [$off]: [string | Array<string>]. *)
Inductive evarg :=
| EvStr (s : string)
| EvArr (l : list string).

(** What a user callback does: it may call the public bus API of [vm]
    (this is how handlers subscribe, unsubscribe and emit during an
    emission) and then either returns a value or throws one. *)
Inductive cmd :=
| COn (event : evarg) (fn : value)              (* vm.$on(event, fn) *)
| COnce (event : string) (fn : value)           (* vm.$once(event, fn) *)
| COff (args : option (evarg * value))          (* vm.$off(), vm.$off(event, fn) *)
| CEmit (event : string) (args : list value).   (* vm.$emit(event, ...args) *)

Inductive completion :=
| Return (v : value)
| Throw (v : value).

Inductive exn :=
| TypeError
| Thrown (v : value).

(** The code of a heap object.  Besides user callbacks these are exactly
    the closures the two source files create. *)
Inductive code :=
| UserFn (body : list cmd) (fin : completion)
| Invoker (vm : option component)
    (* [function invoker ()] of createFnInvoker; its payload is the
       property [fns] of the object itself *)
| OnceHandler (event : string) (fn : value) (_target : option component)
    (* [function onceHandler ()] of createOnceHandler *)
| OnceOn (event : string) (fn : value)
    (* [function on ()] of $once *)
| ArrayObj (elems : list value).

(** An object with the two properties the source reads and writes on
    functions: [fns] (invoker payload) and [fn] (original callback of a
    [$once] wrapper).  An unset property reads as [undefined]. *)
Record object := Object {
  obj_code : code;
  obj_fns : value;
  obj_fn : value
}.

Inductive diag :=
| Warn (msg : string) (vm : option component)                 (* warn(msg, vm) *)
| Tip (lowerCaseEvent event : string)                         (* tip(...) of $emit *)
| Handled (e : exn) (vm : option component) (info : string).  (* handleError(e, vm, info) *)

(** One entry of the invocation log of user callbacks. *)
Record call_record := Call {
  call_fn : ref;
  call_this : option component;
  call_args : list value
}.

(** A call received by a recording host registry. *)
Inductive hostcall :=
| HAdd (name : string) (handler : value) (capture passive : bool) (params : value)
| HRemove (name : string) (handler : value) (capture : bool).

Record state := State {
  heap : gmap ref object;
  next : ref;                          (* next unused identity *)
  _events : gmap string (option ref);  (* vm._events: name -> ?Array<Function> *)
  _hasHookEvent : bool;                (* vm._hasHookEvent *)
  target : option component;           (* module-level [let target] of events.js *)
  production : bool;                   (* process.env.NODE_ENV === 'production' *)
  diags : list diag;                   (* diagnostic channel, oldest first *)
  calls : list call_record;            (* user callbacks entered, oldest first *)
  hostlog : list hostcall              (* calls seen by a recording host *)
}.

Definition set_heap (h : gmap ref object) (s : state) : state :=
  State h (next s) (_events s) (_hasHookEvent s) (target s) (production s)
        (diags s) (calls s) (hostlog s).
Definition set_next (n : ref) (s : state) : state :=
  State (heap s) n (_events s) (_hasHookEvent s) (target s) (production s)
        (diags s) (calls s) (hostlog s).
Definition set_events (e : gmap string (option ref)) (s : state) : state :=
  State (heap s) (next s) e (_hasHookEvent s) (target s) (production s)
        (diags s) (calls s) (hostlog s).
Definition set_hasHookEvent (b : bool) (s : state) : state :=
  State (heap s) (next s) (_events s) b (target s) (production s)
        (diags s) (calls s) (hostlog s).
Definition set_target (t : option component) (s : state) : state :=
  State (heap s) (next s) (_events s) (_hasHookEvent s) t (production s)
        (diags s) (calls s) (hostlog s).
Definition add_diag (d : diag) (s : state) : state :=
  State (heap s) (next s) (_events s) (_hasHookEvent s) (target s) (production s)
        (diags s ++ [d]) (calls s) (hostlog s).
Definition add_call (c : call_record) (s : state) : state :=
  State (heap s) (next s) (_events s) (_hasHookEvent s) (target s) (production s)
        (diags s) (calls s ++ [c]) (hostlog s).
Definition add_hostcall (c : hostcall) (s : state) : state :=
  State (heap s) (next s) (_events s) (_hasHookEvent s) (target s) (production s)
        (diags s) (calls s) (hostlog s ++ [c]).

(** ** The monad of operations *)

Inductive outcome (A : Type) :=
| Done (a : A) (s : state)     (* returned normally *)
| Raised (e : exn) (s : state) (* an exception propagates to the caller *)
| Timeout.                     (* the fuel given to the interpreter ran out *)
Arguments Done {A} a s.
Arguments Raised {A} e s.
Arguments Timeout {A}.

Definition M (A : Type) : Type := state -> outcome A.

Definition ret {A} (a : A) : M A := fun s => Done a s.
Definition bind {A B} (m : M A) (k : A -> M B) : M B :=
  fun s => match m s with
           | Done a s' => k a s'
           | Raised e s' => Raised e s'
           | Timeout => Timeout
           end.
Definition throw {A} (e : exn) : M A := fun s => Raised e s.
Definition gets {A} (f : state -> A) : M A := fun s => Done (f s) s.
Definition modify (f : state -> state) : M unit := fun s => Done tt (f s).

Notation "'let*' x := c1 'in' c2" := (bind c1 (fun x => c2))
  (at level 10, x name, c1 at level 100, c2 at level 200).
Notation "c1 ;; c2" := (bind c1 (fun _ => c2))
  (at level 100, c2 at level 200, right associativity).

(** [for (...) body(x)] over the elements of a list. *)
Fixpoint for_each {A} (body : A -> M unit) (l : list A) : M unit :=
  match l with
  | [] => ret tt
  | x :: l' => body x ;; for_each body l'
  end.

(** ** JavaScript primitives used by the source *)

(** Modelled from the spec: [isUndef] (shared/util) is imported but not
    among the sources; the spec's reconciler treats a value as missing
    when it is absent or null, that is [v === undefined || v === null]. *)
Definition isUndef (v : value) : bool :=
  match v with VUndef | VNull => true | _ => false end.

(** Truthiness, as tested by [!fn] and [||]. *)
Definition truthy (v : value) : bool :=
  match v with
  | VUndef | VNull => false
  | VBool b => b
  | VNum n => negb (n =? 0)%Z
  | VStr s => negb (String.eqb s EmptyString)
  | VObj _ => true
  end.

(** [a === b]. *)
Definition strict_eq (a b : value) : bool :=
  match a, b with
  | VUndef, VUndef => true
  | VNull, VNull => true
  | VBool x, VBool y => Bool.eqb x y
  | VNum x, VNum y => (x =? y)%Z
  | VStr x, VStr y => String.eqb x y
  | VObj x, VObj y => Nat.eqb x y
  | _, _ => false
  end.

(** [v.fns] and [v.fn]; [None] is the TypeError of reading a property of
    [undefined] or [null]. *)
Definition prop_fns (h : gmap ref object) (v : value) : option value :=
  match v with
  | VUndef | VNull => None
  | VObj r => Some (match h !! r with Some o => obj_fns o | None => VUndef end)
  | _ => Some VUndef
  end.
Definition prop_fn (h : gmap ref object) (v : value) : option value :=
  match v with
  | VUndef | VNull => None
  | VObj r => Some (match h !! r with Some o => obj_fn o | None => VUndef end)
  | _ => Some VUndef
  end.

(** [v.fns = x] (module code is strict: assigning a property of a
    primitive is a TypeError). *)
Definition set_fns (v x : value) : M unit :=
  match v with
  | VObj r =>
      modify (fun s => set_heap
        (alter (fun o => Object (obj_code o) x (obj_fn o)) r (heap s)) s)
  | _ => throw TypeError
  end.

(** Allocation of a fresh object. *)
Definition alloc (o : object) : M ref :=
  fun s => Done (next s) (set_next (S (next s)) (set_heap (<[next s := o]> (heap s)) s)).

(** The elements of the array at [a] ([[]] if [a] is not an array). *)
Definition elems (h : gmap ref object) (a : ref) : list value :=
  match h !! a with
  | Some (Object (ArrayObj l) _ _) => l
  | _ => []
  end.

(** Replace the elements of an array object (other objects are left
    alone). *)
Definition arr_set (l : list value) (o : object) : object :=
  match obj_code o with
  | ArrayObj _ => Object (ArrayObj l) (obj_fns o) (obj_fn o)
  | _ => o
  end.

Definition set_elems (a : ref) (l : list value) (s : state) : state :=
  set_heap (alter (arr_set l) a (heap s)) s.

(** [Array.isArray(v)], giving the elements. *)
Definition as_array (h : gmap ref object) (v : value) : option (list value) :=
  match v with
  | VObj r => match h !! r with
              | Some (Object (ArrayObj l) _ _) => Some l
              | _ => None
              end
  | _ => None
  end.

Definition quote : string := String (ascii_of_nat 34) EmptyString.

(** [String(v)], as used in the warning of [updateListeners], where [v]
    is [undefined] or [null]. *)
Definition js_String (v : value) : string :=
  match v with
  | VNull => "null"
  | VBool true => "true"
  | VBool false => "false"
  | VStr s => s
  | _ => "undefined"
  end.

Definition lower_ascii (c : ascii) : ascii :=
  let n := nat_of_ascii c in
  if ((65 <=? n) && (n <=? 90))%nat then ascii_of_nat (n + 32) else c.

(** [s.toLowerCase()] on ASCII names. *)
Fixpoint toLowerCase (s : string) : string :=
  match s with
  | EmptyString => EmptyString
  | String c r => String (lower_ascii c) (toLowerCase r)
  end.

(** [hookRE.test(event)] with [hookRE = /^hook:/]. *)
Definition hookRE_test (event : string) : bool := String.prefix "hook:" event.

(** ** update-listeners.js: normalizeEvent *)

Record event_descr := Descr {
  ev_name : string;
  ev_once : bool;
  ev_capture : bool;
  ev_passive : bool
}.

(** [s.charAt(0)] and [s.slice(1)]. *)
Definition charAt0 (s : string) : string :=
  match s with
  | EmptyString => EmptyString
  | String c _ => String c EmptyString
  end.
Definition slice1 (s : string) : string :=
  match s with
  | EmptyString => EmptyString
  | String _ r => r
  end.

(** The function passed to [cached].  Modelled from the spec: [cached]
    (shared/util) is not among the sources; the spec describes it as
    memoisation of a pure function keyed by the raw token, so the cached
    function is the function itself. *)
Definition normalizeEvent (name : string) : event_descr :=
  let passive := String.eqb (charAt0 name) "&" in
  let name := if passive then slice1 name else name in
  let once := String.eqb (charAt0 name) "~" in
  let name := if once then slice1 name else name in
  let capture := String.eqb (charAt0 name) "!" in
  let name := if capture then slice1 name else name in
  Descr name once capture passive.

(** ** The shared error-isolation boundary *)

(** Application of a function value: [f.apply(this, args)]. *)
Definition applier : Type := value -> option component -> list value -> M value.

(** Modelled from the spec: [invokeWithErrorHandling] (core/util) is
    imported by both files but is not among the sources.  The spec calls
    it the shared error-isolation boundary: the handler is applied to the
    context and the arguments; a fault is tagged with the owning instance
    and the description and sent to the diagnostic channel, never
    re-thrown; the handler's result is returned ([undefined] after a
    fault). *)
Definition invokeWithErrorHandling (apply : applier) (handler : value)
    (context : option component) (args : list value)
    (vm : option component) (info : string) : M value :=
  fun s => match apply handler context args s with
           | Done res s' => Done res s'
           | Raised e s' => Done VUndef (add_diag (Handled e vm info) s')
           | Timeout => Timeout
           end.

(** ** update-listeners.js: createFnInvoker *)

(** The body of [function invoker ()], for the invoker object [self]. *)
Definition invoker (apply : applier) (self : ref) (vm : option component)
    (args : list value) : M value :=
  let* fns := gets (fun s => match heap s !! self with
                             | Some o => obj_fns o
                             | None => VUndef
                             end) in
  let* arr := gets (fun s => as_array (heap s) fns) in
  match arr with
  | Some cloned =>
      for_each (fun cb =>
                  invokeWithErrorHandling apply cb None args vm "v-on handler" ;;
                  ret tt) cloned ;;
      ret VUndef
  | None =>
      (* return handler return value for single handlers *)
      invokeWithErrorHandling apply fns None args vm "v-on handler"
  end.

Definition createFnInvoker (fns : value) (vm : option component) : M value :=
  let* r := alloc (Object (Invoker vm) fns VUndef) in
  ret (VObj r).

(** ** update-listeners.js: updateListeners *)

(** A declaration map: the own enumerable properties of the object, in
    [for ... in] order (keys are unique; properties inherited from a
    prototype are not modelled). *)
Definition declmap : Type := list (string * value).

(** [m[k]] ([undefined] when there is no such property). *)
Fixpoint lookup_key (m : declmap) (k : string) : value :=
  match m with
  | [] => VUndef
  | (k', v) :: m' => if String.eqb k' k then v else lookup_key m' k
  end.

(** [m[k] = v]. *)
Fixpoint set_key (m : declmap) (k : string) (v : value) : declmap :=
  match m with
  | [] => [(k, v)]
  | (k', v') :: m' =>
      if String.eqb k' k then (k', v) :: m' else (k', v') :: set_key m' k v
  end.

(** The injected primitives of the host registry. *)
Record host := Host {
  h_add : string -> value -> bool -> bool -> value -> M unit;
  h_remove : string -> value -> bool -> M unit;
  h_createOnceHandler : string -> value -> bool -> M value
}.

(** Modelled from the spec: [warn] (core/util) is not among the sources;
    it reports a non-fatal diagnostic for the instance. *)
Definition warn (msg : string) (vm : option component) : M unit :=
  modify (add_diag (Warn msg vm)).

(** [`Invalid handler for event "${event.name}": got ` + String(cur)] *)
Definition invalid_handler_msg (event : event_descr) (cur : value) : string :=
  "Invalid handler for event " ++ quote ++ ev_name event ++ quote
  ++ ": got " ++ js_String cur.

(** Body of the first loop, for the key [name]; the result is the
    declaration map after the assignments to [on[name]].  The build
    constant [__WEEX__], declared outside the sources, is taken to be
    false (the platform-neutral build), so [event.params] stays
    [undefined]; [isTrue(event.once)] is the flag itself. *)
Definition update_entry (h : host) (oldOn : declmap) (vm : option component)
    (on : declmap) (name : string) : M declmap :=
  let cur := lookup_key on name in
  let old := lookup_key oldOn name in
  let event := normalizeEvent name in
  if isUndef cur then
    let* prod := gets production in
    (if prod then ret tt else warn (invalid_handler_msg event cur) vm) ;;
    ret on
  else if isUndef old then
    let* fns := gets (fun s => default VUndef (prop_fns (heap s) cur)) in
    let* p1 := (if isUndef fns
                then let* i := createFnInvoker cur vm in ret (i, set_key on name i)
                else ret (cur, on)) in
    let* p2 := (if ev_once event
                then let* w := h_createOnceHandler h (ev_name event) (fst p1)
                                                   (ev_capture event) in
                     ret (w, set_key (snd p1) name w)
                else ret p1) in
    h_add h (ev_name event) (fst p2) (ev_capture event) (ev_passive event) VUndef ;;
    ret (snd p2)
  else if negb (strict_eq cur old) then
    set_fns old cur ;;
    ret (set_key on name old)
  else ret on.

Fixpoint update_loop (h : host) (oldOn : declmap) (vm : option component)
    (names : list string) (on : declmap) : M declmap :=
  match names with
  | [] => ret on
  | name :: rest =>
      let* on' := update_entry h oldOn vm on name in
      update_loop h oldOn vm rest on'
  end.

(** Body of the second loop, for the key [name] of [oldOn]. *)
Definition remove_entry (h : host) (on oldOn : declmap) (name : string) : M unit :=
  if isUndef (lookup_key on name) then
    let event := normalizeEvent name in
    h_remove h (ev_name event) (lookup_key oldOn name) (ev_capture event)
  else ret tt.

Definition updateListeners (h : host) (on oldOn : declmap)
    (vm : option component) : M declmap :=
  let* on' := update_loop h oldOn vm (map fst on) on in
  for_each (remove_entry h on' oldOn) (map fst oldOn) ;;
  ret on'.

(** ** events.js: the bus *)

(** [a.push(v)] *)
Definition push (a : ref) (v : value) : M unit :=
  modify (fun s => set_elems a (elems (heap s) a ++ [v]) s).

Definition set_event (event : string) (slot : option ref) (s : state) : state :=
  set_events (<[event := slot]> (_events s)) s.

(** The non-array branch of [$on]. *)
Definition on_one (event : string) (fn : value) : M unit :=
  let* slot := gets (fun s => _events s !! event) in
  let* a := match slot with
            | Some (Some a) => ret a
            | _ => let* a := alloc (Object (ArrayObj []) VUndef VUndef) in
                   modify (set_event event (Some a)) ;;
                   ret a
            end in
  push a fn ;;
  if hookRE_test event then modify (set_hasHookEvent true) else ret tt.

(** [Vue.prototype.$on].  The elements of an array of names are strings,
    so each recursive call takes the non-array branch. *)
Definition Vue_on (event : evarg) (fn : value) : M component :=
  match event with
  | EvArr l => for_each (fun e => on_one e fn) l
  | EvStr e => on_one e fn
  end ;;
  ret Vm.

(** Result of the reverse scan of [$off]. *)
Inductive scan_result :=
| Found (i : nat)
| NotFound
| ScanError.

(** [while (i--) { cb = cbs[i]; if (cb === fn || cb.fn === fn) ... }] *)
Fixpoint scan (h : gmap ref object) (cbs : list value) (fn : value) (i : nat)
  : scan_result :=
  match i with
  | 0 => NotFound
  | S j =>
      let cb := default VUndef (cbs !! j) in
      if strict_eq cb fn then Found j
      else match prop_fn h cb with
           | None => ScanError
           | Some orig => if strict_eq orig fn then Found j else scan h cbs fn j
           end
  end.

(** The part of [$off] after the array test, with two arguments. *)
Definition off_one (event : string) (fn : value) : M unit :=
  let* slot := gets (fun s => _events s !! event) in
  match slot with
  | Some (Some a) =>
      if negb (truthy fn) then modify (set_event event None)
      else
        let* h := gets heap in
        let cbs := elems h a in
        match scan h cbs fn (length cbs) with
        | Found i => modify (set_elems a (delete i cbs))   (* cbs.splice(i, 1) *)
        | NotFound => ret tt
        | ScanError => throw TypeError
        end
  | _ => ret tt
  end.

(** [Vue.prototype.$off].  [None] is the call without arguments;
    [$off(event)] is [Some (event, VUndef)]. *)
Definition Vue_off (args : option (evarg * value)) : M component :=
  match args with
  | None => modify (set_events ∅)
  | Some (EvArr l, fn) => for_each (fun e => off_one e fn) l
  | Some (EvStr e, fn) => off_one e fn
  end ;;
  ret Vm.

(** [Vue.prototype.$once] *)
Definition Vue_once (event : string) (fn : value) : M component :=
  let* on := alloc (Object (OnceOn event fn) VUndef fn) in
  Vue_on (EvStr event) (VObj on).

(** The array [$emit] iterates over: the live array of the bus, or the
    private copy made by [toArray] (a shallow copy that only the loop
    can reach, hence a list). *)
Inductive cbs_source :=
| Live (a : ref)
| Copy (l : list value).

(** [cbs[i]] *)
Definition read_cbs (cbs : cbs_source) (i : nat) : M value :=
  gets (fun s => default VUndef
                   (match cbs with
                    | Live a => elems (heap s) a
                    | Copy l => l
                    end !! i)).

(** [for (let i = 0, l = cbs.length; i < l; i++)], with [n = l - i]. *)
Fixpoint emit_loop (apply : applier) (cbs : cbs_source) (args : list value)
    (info : string) (i n : nat) : M unit :=
  match n with
  | 0 => ret tt
  | S n' =>
      let* cb := read_cbs cbs i in
      invokeWithErrorHandling apply cb (Some Vm) args (Some Vm) info ;;
      emit_loop apply cbs args info (S i) n'
  end.

Definition slot_truthy (slot : option (option ref)) : bool :=
  match slot with Some (Some _) => true | _ => false end.

(** The development-only block at the start of [$emit]: a tip when the
    lower-cased name differs and has handlers.  ([tip], [hyphenate] and
    [formatComponentName] are not among the sources; the tip is recorded
    with the two names its message is built from.) *)
Definition emit_tip (event : string) : M unit :=
  let* prod := gets production in
  if prod then ret tt
  else
    let lowerCaseEvent := toLowerCase event in
    let* registered := gets (fun s => slot_truthy (_events s !! lowerCaseEvent)) in
    if negb (String.eqb lowerCaseEvent event) && registered
    then modify (add_diag (Tip lowerCaseEvent event))
    else ret tt.

(** [`event handler for "${event}"`] *)
Definition emit_info (event : string) : string :=
  "event handler for " ++ quote ++ event ++ quote.

(** [Vue.prototype.$emit] *)
Definition Vue_emit (apply : applier) (event : string) (args : list value)
  : M component :=
  emit_tip event ;;
  let* slot := gets (fun s => _events s !! event) in
  match slot with
  | Some (Some a) =>
      let* live := gets (fun s => elems (heap s) a) in
      let cbs := if (1 <? length live)%nat then Copy live else Live a in
      emit_loop apply cbs args (emit_info event) 0 (length live)
  | _ => ret tt
  end ;;
  ret Vm.

(** ** events.js: the host primitives of the component *)

(** [function add (event, fn) { target.$on(event, fn) }] *)
Definition add (event : string) (fn : value) : M unit :=
  let* t := gets target in
  match t with
  | Some Vm => Vue_on (EvStr event) fn ;; ret tt
  | None => throw TypeError
  end.

(** [function remove (event, fn) { target.$off(event, fn) }] *)
Definition remove (event : string) (fn : value) : M unit :=
  let* t := gets target in
  match t with
  | Some Vm => Vue_off (Some (EvStr event, fn)) ;; ret tt
  | None => throw TypeError
  end.

Definition createOnceHandler (event : string) (fn : value) : M value :=
  let* _target := gets target in
  let* r := alloc (Object (OnceHandler event fn _target) VUndef VUndef) in
  ret (VObj r).

(** The body of [function onceHandler ()], for the closure [self]. *)
Definition onceHandler (apply : applier) (self : ref) (event : string)
    (fn : value) (_target : option component) (args : list value) : M value :=
  let* res := apply fn None args in
  (if negb (strict_eq res VNull) then
     match _target with
     | Some Vm => Vue_off (Some (EvStr event, VObj self)) ;; ret tt
     | None => throw TypeError
     end
   else ret tt) ;;
  ret VUndef.

(** The body of [function on ()] of [$once], for the closure [self]. *)
Definition once_on (apply : applier) (self : ref) (event : string)
    (fn : value) (args : list value) : M value :=
  Vue_off (Some (EvStr event, VObj self)) ;;
  apply fn (Some Vm) args ;;
  ret VUndef.

(** The three primitives as [updateComponentListeners] injects them; the
    extra arguments are dropped by the two-parameter functions. *)
Definition bus_host : host :=
  Host (fun event fn _ _ _ => add event fn)
       (fun event fn _ => remove event fn)
       (fun event fn _ => createOnceHandler event fn).

(** A host registry that only records the calls it receives (its once
    adapter is the one of events.js). *)
Definition trace_host : host :=
  Host (fun name handler capture passive params =>
          modify (add_hostcall (HAdd name handler capture passive params)))
       (fun name handler capture =>
          modify (add_hostcall (HRemove name handler capture)))
       (fun event fn _ => createOnceHandler event fn).

Definition updateComponentListeners (listeners : declmap)
    (oldListeners : option declmap) : M declmap :=
  modify (set_target (Some Vm)) ;;
  let* on := updateListeners bus_host listeners
               (match oldListeners with Some o => o | None => [] end) (Some Vm) in
  modify (set_target None) ;;
  ret on.

(** [initEvents]; the argument is [vm.$options._parentListeners] and the
    result is that object after the pass. *)
Definition initEvents (_parentListeners : option declmap) : M (option declmap) :=
  modify (set_events ∅) ;;
  modify (set_hasHookEvent false) ;;
  match _parentListeners with
  | Some listeners =>
      let* on := updateComponentListeners listeners None in
      ret (Some on)
  | None => ret None
  end.

(** ** Calling function objects *)

Definition run_cmd (apply : applier) (c : cmd) : M unit :=
  match c with
  | COn event fn => Vue_on event fn ;; ret tt
  | COnce event fn => Vue_once event fn ;; ret tt
  | COff args => Vue_off args ;; ret tt
  | CEmit event args => Vue_emit apply event args ;; ret tt
  end.

Definition finish (fin : completion) : M value :=
  match fin with
  | Return v => ret v
  | Throw v => throw (Thrown v)
  end.

(** [f.apply(this, args)].  The fuel bounds the depth of nested calls;
    applying something that is not a function is a TypeError. *)
Fixpoint call (fuel : nat) (f : value) (this : option component)
    (args : list value) : M value :=
  match fuel with
  | 0 => fun _ => Timeout
  | S n =>
      match f with
      | VObj r =>
          let* o := gets (fun s => heap s !! r) in
          match o with
          | Some (Object (UserFn body fin) _ _) =>
              modify (add_call (Call r this args)) ;;
              for_each (run_cmd (call n)) body ;;
              finish fin
          | Some (Object (Invoker vm) _ _) => invoker (call n) r vm args
          | Some (Object (OnceHandler event fn t) _ _) =>
              onceHandler (call n) r event fn t args
          | Some (Object (OnceOn event fn) _ _) => once_on (call n) r event fn args
          | _ => throw TypeError
          end
      | _ => throw TypeError
      end
  end.

(** [vm.$emit(event, ...args)] with call depth at most [fuel]. *)
Definition emit (fuel : nat) (event : string) (args : list value) : M component :=
  Vue_emit (call fuel) event args.

(** ** Fuel *)

(** [o1] is [o2], unless the fuel ran out before [o1] was reached. *)
Definition outcome_le {A} (o1 o2 : outcome A) : Prop :=
  o1 = Timeout \/ o1 = o2.

Definition m_le {A} (m1 m2 : M A) : Prop :=
  forall s, outcome_le (m1 s) (m2 s).

Definition applier_le (a1 a2 : applier) : Prop :=
  forall f this args, m_le (a1 f this args) (a2 f this args).

(** ** Specification-level definitions used in the statements *)

(** The normalizer as the specification words it: test and strip a
    passive marker, then a once marker, then a capture marker, each from
    the front of what remains. *)
Definition strip_marker (m : ascii) (s : string) : bool * string :=
  match s with
  | String c r => if Ascii.eqb c m then (true, r) else (false, s)
  | EmptyString => (false, s)
  end.

Definition normalize_in_order (token : string) : event_descr :=
  let (passive, s1) := strip_marker "&" token in
  let (once, s2) := strip_marker "~" s1 in
  let (capture, s3) := strip_marker "!" s2 in
  Descr s3 once capture passive.

(** The markers a descriptor stands for, in the order they were read. *)
Definition markers (d : event_descr) : string :=
  (if ev_passive d then "&" else EmptyString) ++
  (if ev_once d then "~" else EmptyString) ++
  (if ev_capture d then "!" else EmptyString).

(** A token carries no marker when it does not start with one. *)
Definition starts_with_marker (token : string) : bool :=
  match token with
  | String c _ => Ascii.eqb c "&" || Ascii.eqb c "~" || Ascii.eqb c "!"
  | EmptyString => false
  end.

(** The sequence registered for [event] ([[]] when the name has no
    sequence or was cleared). *)
Definition subscribed (s : state) (event : string) : list value :=
  match _events s !! event with
  | Some (Some a) => elems (heap s) a
  | _ => []
  end.

(** The test of [$off] on one stored entry: [cb === fn || cb.fn === fn]. *)
Definition is_match (h : gmap ref object) (fn cb : value) : bool :=
  strict_eq cb fn ||
  match prop_fn h cb with
  | Some orig => strict_eq orig fn
  | None => false
  end.

(** Every callback of [cbs], in order, each through the error-isolation
    boundary with the instance as context and as owner. *)
Fixpoint invoke_all (apply : applier) (args : list value) (info : string)
    (cbs : list value) : M unit :=
  match cbs with
  | [] => ret tt
  | cb :: rest =>
      invokeWithErrorHandling apply cb (Some Vm) args (Some Vm) info ;;
      invoke_all apply args info rest
  end.

(** The state an operation ends in, if it ends. *)
Definition final_state {A} (o : outcome A) : option state :=
  match o with
  | Done _ s => Some s
  | Raised _ s => Some s
  | Timeout => None
  end.

(** [post m s Q]: when [m] ends from [s], normally or with an exception,
    the state it ends in satisfies [Q]. *)
Definition post {A} (m : M A) (s : state) (Q : state -> Prop) : Prop :=
  match final_state (m s) with
  | Some s' => Q s'
  | None => True
  end.

(** [m] keeps the invariant [P]. *)
Definition keeps {A} (P : state -> Prop) (m : M A) : Prop :=
  forall s, P s -> post m s P.

(** A host whose primitives keep [P], and a function application that
    keeps [P]. *)
Definition host_keeps (P : state -> Prop) (h : host) : Prop :=
  (forall n f c p x, keeps P (h_add h n f c p x)) /\
  (forall n f c, keeps P (h_remove h n f c)) /\
  (forall n f c, keeps P (h_createOnceHandler h n f c)).

Definition applier_keeps (P : state -> Prop) (apply : applier) : Prop :=
  forall f this args, keeps P (apply f this args).


(** Everything a client can do with the instance after [initEvents]:
    use the bus API, apply a function object, run a reconciliation
    pass. *)
Inductive op :=
| OCmd (c : cmd)
| OCall (f : value) (this : option component) (args : list value)
| OUpdate (listeners : declmap) (oldListeners : option declmap).

Definition run_op (fuel : nat) (o : op) : M unit :=
  match o with
  | OCmd c => run_cmd (call fuel) c
  | OCall f this args => call fuel f this args ;; ret tt
  | OUpdate listeners oldListeners =>
      updateComponentListeners listeners oldListeners ;; ret tt
  end.

(** ** The bus as the specification describes it *)

(** Subscribe and unsubscribe operations. *)
Inductive busop :=
| Subscribe (event : evarg) (fn : value)
| Unsubscribe (args : option (evarg * value)).

Definition run_busop (o : busop) : M unit :=
  match o with
  | Subscribe event fn => Vue_on event fn ;; ret tt
  | Unsubscribe args => Vue_off args ;; ret tt
  end.

(** Remove the last entry satisfying [p], keeping the order of the
    others. *)
Fixpoint remove_first {A} (p : A -> bool) (l : list A) : list A :=
  match l with
  | [] => []
  | x :: l' => if p x then l' else x :: remove_first p l'
  end.
Definition remove_last {A} (p : A -> bool) (l : list A) : list A :=
  rev (remove_first p (rev l)).

(** The subscriptions, per name, in subscription order. *)
Definition subscriptions : Type := string -> list value.

Definition sub_one (event : string) (fn : value) (b : subscriptions)
  : subscriptions :=
  fun e => if String.eqb e event then (b e ++ [fn])%list else b e.

Definition unsub_one (h : gmap ref object) (event : string) (fn : value)
    (b : subscriptions) : subscriptions :=
  fun e => if String.eqb e event
           then if truthy fn then remove_last (is_match h fn) (b e) else []
           else b e.

Definition names_of (event : evarg) : list string :=
  match event with
  | EvStr e => [e]
  | EvArr l => l
  end.

(** The subscriptions after one operation; [h] gives the [fn] property
    of the stored functions. *)
Definition spec_busop (h : gmap ref object) (o : busop) (b : subscriptions)
  : subscriptions :=
  match o with
  | Subscribe event fn => fold_left (fun b e => sub_one e fn b) (names_of event) b
  | Unsubscribe None => fun _ => []
  | Unsubscribe (Some (event, fn)) =>
      fold_left (fun b e => unsub_one h e fn b) (names_of event) b
  end.

Definition spec_busops (h : gmap ref object) (ops : list busop)
    (b : subscriptions) : subscriptions :=
  fold_left (fun b o => spec_busop h o b) ops b.

(** ** Well-formed bus states *)

Definition is_arr (h : gmap ref object) (a : ref) : Prop :=
  exists l x y, h !! a = Some (Object (ArrayObj l) x y).

(** What [initEvents], [$on] and [$off] maintain: every registered
    sequence is an array object of its own, identities in use are below
    [next], and the stored entries are functions (not [undefined] or
    [null]). *)
Record bus_inv (s : state) : Prop := BusInv {
  inv_arr : forall e a, _events s !! e = Some (Some a) -> is_arr (heap s) a;
  inv_inj : forall e1 e2 a,
      _events s !! e1 = Some (Some a) -> _events s !! e2 = Some (Some a) ->
      e1 = e2;
  inv_next : forall r, is_Some (heap s !! r) -> r < next s;
  inv_defined : forall e, Forall (fun cb => isUndef cb = false) (subscribed s e)
}.

Definition busop_typed (o : busop) : Prop :=
  match o with
  | Subscribe _ fn => isUndef fn = false
  | Unsubscribe _ => True
  end.

(** Pointwise equality of subscriptions. *)
Definition same_subs (b1 b2 : subscriptions) : Prop := forall e, b1 e = b2 e.

(** The bus state [s] represents the subscriptions [b]; [h0] is the heap
    the functions' [fn] properties are read from. *)
Definition refines (h0 : gmap ref object) (s : state) (b : subscriptions) : Prop :=
  bus_inv s /\
  same_subs (subscribed s) b /\
  (forall v, prop_fn (heap s) v = prop_fn h0 v).

(** ** The calls a reconciliation pass makes *)

(** The values of a declaration map are handlers or missing, never
    primitives such as numbers. *)
Definition handler_or_missing (v : value) : Prop :=
  match v with
  | VUndef | VNull | VObj _ => True
  | _ => False
  end.

Definition declmap_typed (m : declmap) : Prop :=
  Forall (fun kv => handler_or_missing (snd kv)) m.

(** A key of the new map whose value is present while the old map has
    none for it. *)
Definition is_new (on oldOn : declmap) (name : string) : bool :=
  negb (isUndef (lookup_key on name)) && isUndef (lookup_key oldOn name).

(** A key for which the new map has no value. *)
Definition is_gone (on : declmap) (name : string) : bool :=
  isUndef (lookup_key on name).

(** The [add] call for the key [name], where [on'] is the new map after
    the pass, holding the handler that was registered. *)
Definition add_call_for (on' : declmap) (name : string) : hostcall :=
  let event := normalizeEvent name in
  HAdd (ev_name event) (lookup_key on' name) (ev_capture event)
       (ev_passive event) VUndef.

(** The [remove] call for the key [name] of the old map. *)
Definition remove_call_for (oldOn : declmap) (name : string) : hostcall :=
  let event := normalizeEvent name in
  HRemove (ev_name event) (lookup_key oldOn name) (ev_capture event).

(** The diagnostic for a key of the new map without a value. *)
Definition invalid_warning (vm : option component) (on : declmap)
    (name : string) : diag :=
  Warn (invalid_handler_msg (normalizeEvent name) (lookup_key on name)) vm.

(** ** Callbacks that do not touch the bus *)

(** A user callback with an empty body: it only returns or throws. *)
Definition quiet_fn (h : gmap ref object) (v : value) : Prop :=
  exists r fin x y, v = VObj r /\ h !! r = Some (Object (UserFn [] fin) x y).

Definition ref_of (v : value) : ref :=
  match v with
  | VObj r => r
  | _ => 0
  end.

(** The log entries made by applying each of [cbs] once with context
    [this] and arguments [args]. *)
Definition calls_of (this : option component) (args : list value)
    (cbs : list value) : list call_record :=
  map (fun cb => Call (ref_of cb) this args) cbs.

(** The fault a quiet callback raises, as the boundary records it. *)
Definition fault_of (h : gmap ref object) (vm : option component)
    (info : string) (cb : value) : list diag :=
  match cb with
  | VObj r =>
      match h !! r with
      | Some (Object (UserFn _ (Throw v)) _ _) => [Handled (Thrown v) vm info]
      | _ => []
      end
  | _ => []
  end.

(** Objects other than arrays, which no bus operation modifies. *)
Definition not_array (o : object) : Prop :=
  match obj_code o with
  | ArrayObj _ => False
  | _ => True
  end.

Definition keeps_objects (h h' : gmap ref object) : Prop :=
  forall r o, h !! r = Some o -> not_array o -> h' !! r = Some o.

(** ** Concrete states for the examples *)

(** A state with the given objects at identities [0, 1, ...], an empty
    bus and empty logs. *)
Definition fresh_state (objs : list object) (prod : bool) : state :=
  State (list_to_map (zip (seq 0 (length objs)) objs)) (length objs)
        ∅ false None prod [] [] [].

(** A user callback. *)
Definition callback (body : list cmd) (fin : completion) : object :=
  Object (UserFn body fin) VUndef VUndef.

Definition value_after {A} (d : A) (m : M A) (s : state) : A :=
  match m s with
  | Done a _ => a
  | _ => d
  end.

Definition state_after {A} (m : M A) (s : state) : state :=
  match final_state (m s) with
  | Some s' => s'
  | None => s
  end.


(** ** Further definitions for the properties of the whole module *)

(** A descriptor written back as a token: the markers in the order the
    normalizer reads them, then the name. *)
Definition encode_event (d : event_descr) : string :=
  markers d ++ ev_name d.

(** During a reconciliation pass of the component: the bus is well
    formed and the module-level [target] is the component. *)
Definition pass_inv (s : state) : Prop :=
  bus_inv s /\ target s = Some Vm.

(** The event names the keys of a declaration map stand for. *)
Definition events_of (m : declmap) : list string :=
  map (fun k => ev_name (normalizeEvent k)) (map fst m).

(** The object [r] is the value of some key of [m]. *)
Definition referenced (m : declmap) (r : ref) : Prop :=
  exists k, lookup_key m k = VObj r.

(** What a reconciliation pass leaves as it found it: the subscribers of
    the events outside [touched], the functions outside [writable] (the
    values of the old map), the [fn] property of every value, and the
    log of invocations; identities are only ever allocated. *)
Definition pass_frame (touched : list string) (writable : ref -> Prop)
    (s s' : state) : Prop :=
  (forall e, ~ In e touched -> subscribed s' e = subscribed s e) /\
  (forall r o, heap s !! r = Some o -> not_array o -> ~ writable r ->
               heap s' !! r = Some o) /\
  (forall v, prop_fn (heap s') v = prop_fn (heap s) v) /\
  calls s' = calls s /\
  next s <= next s'.

(** The events of the keys other than [name]. *)
Definition other_events (name : string) (keys : list string) : list string :=
  map (fun k => ev_name (normalizeEvent k))
      (List.filter (fun k => negb (String.eqb k name)) keys).

(** [steps touched writable m Q]: during a pass, [m] returns normally
    with a result satisfying [Q], and changes the state within the
    frame. *)
Definition steps {A} (touched : list string) (writable : ref -> Prop)
    (m : M A) (Q : A -> Prop) : Prop :=
  forall s, pass_inv s ->
  exists a s', m s = Done a s' /\ pass_inv s' /\
               pass_frame touched writable s s' /\ Q a.

(** * Properties *)

Open Scope list_scope.

(** ** The event normalizer *)

Lemma strip_marker_charAt (m : ascii) (s : string) :
  strip_marker m s =
  (String.eqb (charAt0 s) (String m EmptyString),
   if String.eqb (charAt0 s) (String m EmptyString) then slice1 s else s).
Proof.
  destruct s as [|c r]; simpl; [reflexivity|].
  destruct (Ascii.eqb c m); reflexivity.
Qed.

Lemma strip_marker_app (m : ascii) (s r : string) (b : bool) :
  strip_marker m s = (b, r) ->
  s = ((if b then String m EmptyString else EmptyString) ++ r)%string.
Proof.
  destruct s as [|c t]; simpl.
  - intros [= <- <-]. reflexivity.
  - destruct (Ascii.eqb c m) eqn:E; intros [= <- <-]; simpl; [|reflexivity].
    apply Ascii.eqb_eq in E. now subst.
Qed.

Lemma strip_marker_none (m : ascii) (c : ascii) (r : string) :
  Ascii.eqb c m = false -> strip_marker m (String c r) = (false, String c r).
Proof. intros E. simpl. now rewrite E. Qed.

Lemma normalizeEvent_unfold (token : string) :
  normalizeEvent token = normalize_in_order token.
Proof.
  unfold normalizeEvent, normalize_in_order.
  rewrite (strip_marker_charAt "&" token).
  set (s1 := if String.eqb (charAt0 token) "&" then slice1 token else token).
  rewrite (strip_marker_charAt "~" s1).
  set (s2 := if String.eqb (charAt0 s1) "~" then slice1 s1 else s1).
  rewrite (strip_marker_charAt "!" s2).
  reflexivity.
Qed.

Lemma string_app_assoc (a b c : string) :
  ((a ++ b) ++ c = a ++ (b ++ c))%string.
Proof.
  induction a as [|x a IH]; [reflexivity|].
  change (String x ((a ++ b) ++ c) = String x (a ++ (b ++ c)))%string.
  now rewrite IH.
Qed.

(** C8. For every raw token the normalizer tests and strips a passive
    marker first, then a once marker, then a capture marker, each from
    the front of what remains, and returns the rest as the canonical name
    with the three flags: the result is the in-order parse, the token is
    the markers read followed by the name, and a token that does not
    start with a marker is returned unchanged with all flags false. *)
Theorem normalizeEvent_parses_markers_in_order (token : string) :
  normalizeEvent token = normalize_in_order token /\
  token = (markers (normalizeEvent token) ++ ev_name (normalizeEvent token))%string /\
  (starts_with_marker token = false ->
   normalizeEvent token = Descr token false false false).
Proof.
  split; [apply normalizeEvent_unfold|].
  rewrite normalizeEvent_unfold. unfold normalize_in_order.
  destruct (strip_marker "&" token) as [passive s1] eqn:E1.
  destruct (strip_marker "~" s1) as [once s2] eqn:E2.
  destruct (strip_marker "!" s2) as [capture s3] eqn:E3.
  split.
  - unfold markers; simpl.
    apply strip_marker_app in E1, E2, E3. subst token s1 s2.
    now rewrite !string_app_assoc.
  - intros Hno. destruct token as [|c r].
    + simpl in *. now inversion E1; subst; inversion E2; subst; inversion E3.
    + simpl in Hno. apply orb_false_iff in Hno as [Hno H3].
      apply orb_false_iff in Hno as [H1 H2].
      rewrite (strip_marker_none _ _ _ H1) in E1. inversion E1; subst.
      rewrite (strip_marker_none _ _ _ H2) in E2. inversion E2; subst.
      rewrite (strip_marker_none _ _ _ H3) in E3. now inversion E3; subst.
Qed.

Lemma normalizeEvent_parses_markers_in_order_witness :
  starts_with_marker "click" = false /\
  normalizeEvent "click" = Descr "click" false false false.
Proof.
  split; [reflexivity|].
  apply (normalizeEvent_parses_markers_in_order "click"). reflexivity.
Defined.

(** The order is significant: a once marker written before a passive
    marker hides the latter, which stays in the name. *)
Example normalizeEvent_order_matters :
  normalizeEvent "&~!click" = Descr "click" true true true /\
  normalizeEvent "~&click" = Descr "&click" true false false /\
  normalizeEvent "!~click" = Descr "~click" false true false.
Proof. repeat split; reflexivity. Qed.

(** ** Basic facts about the heap and the monad *)

Ltac monad_unfold := unfold bind, ret, gets, modify, throw.

Lemma elems_set_elems (s : state) (a : ref) (l : list value) :
  (exists l0 x y, heap s !! a = Some (Object (ArrayObj l0) x y)) ->
  elems (heap (set_elems a l s)) a = l.
Proof.
  intros (l0 & x & y & H). unfold elems, set_elems; simpl.
  rewrite lookup_alter_eq, H. reflexivity.
Qed.

Lemma elems_nonempty_array (h : gmap ref object) (a : ref) :
  elems h a <> [] -> exists l0 x y, h !! a = Some (Object (ArrayObj l0) x y).
Proof.
  unfold elems. destruct (h !! a) as [[[] x y]|]; try congruence. eauto.
Qed.

Lemma subscribed_slot (s : state) (event : string) (a : ref) :
  _events s !! event = Some (Some a) -> subscribed s event = elems (heap s) a.
Proof. unfold subscribed. now intros ->. Qed.

Lemma subscribed_no_slot (s : state) (event : string) :
  slot_truthy (_events s !! event) = false -> subscribed s event = [].
Proof. unfold subscribed. now destruct (_events s !! event) as [[]|]. Qed.

(** ** [$off] with a name and a callback *)

Lemma scan_spec (h : gmap ref object) (cbs : list value) (fn : value) :
  Forall (fun cb => isUndef cb = false) cbs ->
  forall i, i <= length cbs ->
  match scan h cbs fn i with
  | Found j =>
      j < i /\
      (exists x, cbs !! j = Some x /\ is_match h fn x = true) /\
      (forall k y, j < k < i -> cbs !! k = Some y -> is_match h fn y = false)
  | NotFound => forall k y, k < i -> cbs !! k = Some y -> is_match h fn y = false
  | ScanError => False
  end.
Proof.
  intros Hty. induction i as [|j IH]; intros Hi; simpl.
  - intros k y Hk. lia.
  - destruct (lookup_lt_is_Some_2 cbs j) as [cb Hcb]; [lia|].
    rewrite Hcb; simpl.
    assert (Hdef : isUndef cb = false).
    { rewrite Forall_forall in Hty. apply Hty.
      eapply list_elem_of_lookup_2; eauto. }
    destruct (strict_eq cb fn) eqn:E1.
    { split; [lia|]. split.
      - exists cb. split; [assumption|]. unfold is_match. now rewrite E1.
      - intros k y Hk. lia. }
    destruct (prop_fn h cb) as [orig|] eqn:E2.
    2:{ destruct cb; simpl in *; congruence. }
    destruct (strict_eq orig fn) eqn:E3.
    { split; [lia|]. split.
      - exists cb. split; [assumption|]. unfold is_match.
        now rewrite E1, E2, E3.
      - intros k y Hk. lia. }
    assert (Hno : is_match h fn cb = false).
    { unfold is_match. now rewrite E1, E2, E3. }
    specialize (IH ltac:(lia)).
    destruct (scan h cbs fn j) as [j'| |]; [|  |assumption].
    + destruct IH as (Hlt & Hx & Hafter). split; [lia|]. split; [assumption|].
      intros k y Hk Hy. destruct (decide (k = j)) as [->|Hne].
      * rewrite Hcb in Hy. now inversion Hy; subst.
      * apply (Hafter k y); [lia|assumption].
    + intros k y Hk Hy. destruct (decide (k = j)) as [->|Hne].
      * rewrite Hcb in Hy. now inversion Hy; subst.
      * apply (IH k y); [lia|assumption].
Qed.

Lemma Forall_drop_lookup {A} (P : A -> Prop) (l : list A) (j : nat) :
  (forall k y, j < k < length l -> l !! k = Some y -> P y) ->
  Forall P (drop (S j) l).
Proof.
  intros H. apply Forall_forall. intros y Hy.
  apply list_elem_of_lookup in Hy as [k Hk].
  rewrite lookup_drop in Hk.
  apply (H (S j + k) y); [|assumption].
  apply lookup_lt_Some in Hk. lia.
Qed.

Lemma Forall_all_lookup {A} (P : A -> Prop) (l : list A) :
  (forall k y, k < length l -> l !! k = Some y -> P y) -> Forall P l.
Proof.
  intros H. apply Forall_forall. intros y Hy.
  apply list_elem_of_lookup in Hy as [k Hk].
  apply (H k y); [|assumption]. now apply lookup_lt_Some in Hk.
Qed.

(** The effect of the callback branch of [$off] on one name. *)
Lemma off_one_callback (s : state) (event : string) (fn : value) :
  truthy fn = true ->
  Forall (fun cb => isUndef cb = false) (subscribed s event) ->
  (Forall (fun cb => is_match (heap s) fn cb = false) (subscribed s event) /\
   off_one event fn s = Done tt s)
  \/
  (exists a l1 x l2,
      _events s !! event = Some (Some a) /\
      subscribed s event = l1 ++ x :: l2 /\
      is_match (heap s) fn x = true /\
      Forall (fun cb => is_match (heap s) fn cb = false) l2 /\
      off_one event fn s = Done tt (set_elems a (l1 ++ l2) s) /\
      subscribed (set_elems a (l1 ++ l2) s) event = l1 ++ l2).
Proof.
  intros Hfn Hty. unfold off_one. monad_unfold.
  destruct (_events s !! event) as [[a|]|] eqn:Hslot.
  2,3: left; split; [unfold subscribed; rewrite Hslot; constructor | reflexivity].
  rewrite Hfn; simpl.
  rewrite (subscribed_slot _ _ _ Hslot) in *.
  pose proof (scan_spec (heap s) (elems (heap s) a) fn Hty
                        (length (elems (heap s) a)) (le_n _)) as Hscan.
  destruct (scan (heap s) (elems (heap s) a) fn (length (elems (heap s) a)))
    as [j| |]; [| |contradiction].
  - right. destruct Hscan as (Hlt & (x & Hx & Hmx) & Hafter).
    exists a, (take j (elems (heap s) a)), x, (drop (S j) (elems (heap s) a)).
    split; [reflexivity|].
    split; [symmetry; now apply take_drop_middle|].
    split; [assumption|].
    split; [now apply Forall_drop_lookup|].
    rewrite delete_take_drop. split; [reflexivity|].
    unfold subscribed. simpl. rewrite Hslot.
    apply elems_set_elems, elems_nonempty_array.
    intros Hnil. rewrite Hnil in Hx. discriminate.
  - left. split; [|reflexivity]. now apply Forall_all_lookup.
Qed.

Lemma off_one_no_sequence (s : state) (event : string) (fn : value) :
  slot_truthy (_events s !! event) = false -> off_one event fn s = Done tt s.
Proof.
  unfold off_one. monad_unfold.
  now destruct (_events s !! event) as [[a|]|].
Qed.

(** C7. [$off(name, fn)] with a callback [fn]: the stored sequence is
    scanned from the end and at most one entry is removed, the last one
    that equals [fn] or whose [fn] property equals [fn]; the entries
    before and after it keep their order, and nothing else changes.  When
    the name has no registered sequence the call returns normally and
    changes nothing.  (Stored entries are functions, hence not
    [undefined] or [null].) *)
Theorem Vue_off_callback_removes_last_match
    (s : state) (event : string) (fn : value) :
  truthy fn = true ->
  Forall (fun cb => isUndef cb = false) (subscribed s event) ->
  (slot_truthy (_events s !! event) = false ->
   Vue_off (Some (EvStr event, fn)) s = Done Vm s) /\
  ((Forall (fun cb => is_match (heap s) fn cb = false) (subscribed s event) /\
    Vue_off (Some (EvStr event, fn)) s = Done Vm s)
   \/
   (exists a l1 x l2,
       _events s !! event = Some (Some a) /\
       subscribed s event = l1 ++ x :: l2 /\
       is_match (heap s) fn x = true /\
       Forall (fun cb => is_match (heap s) fn cb = false) l2 /\
       Vue_off (Some (EvStr event, fn)) s = Done Vm (set_elems a (l1 ++ l2) s) /\
       subscribed (set_elems a (l1 ++ l2) s) event = l1 ++ l2)).
Proof.
  intros Hfn Hty. split.
  - intros Hno. unfold Vue_off, bind. now rewrite off_one_no_sequence.
  - destruct (off_one_callback s event fn Hfn Hty)
      as [[Hnone Hoff] | (a & l1 & x & l2 & Hslot & Hcbs & Hx & Hl2 & Hoff & Hsub)].
    + left. split; [assumption|]. unfold Vue_off, bind. now rewrite Hoff.
    + right. exists a, l1, x, l2. repeat (split; [assumption|]).
      split; [|assumption]. unfold Vue_off, bind. now rewrite Hoff.
Qed.

Lemma Vue_off_callback_removes_last_match_witness :
  let s := state_after
             (Vue_on (EvStr "e") (VObj 0) ;; Vue_on (EvStr "e") (VObj 1) ;;
              Vue_on (EvStr "e") (VObj 0))
             (fresh_state [callback [] (Return VUndef);
                           callback [] (Return VUndef)] false) in
  subscribed s "e" = [VObj 0; VObj 1; VObj 0] /\
  exists s', Vue_off (Some (EvStr "e", VObj 0)) s = Done Vm s' /\
             subscribed s' "e" = [VObj 0; VObj 1].
Proof.
  intros s. split; [reflexivity|].
  destruct (Vue_off_callback_removes_last_match s "e" (VObj 0)) as [_ H].
  - reflexivity.
  - vm_compute. repeat constructor.
  - exists (state_after (Vue_off (Some (EvStr "e", VObj 0))) s).
    split; reflexivity.
Defined.

(** ** Invariants kept by every operation but [initEvents] *)

Section Frame.

(** A property of the state that survives every elementary update except
    clearing the hook flag. *)
Variable P : state -> Prop.
Hypothesis P_heap : forall h s, P s -> P (set_heap h s).
Hypothesis P_next : forall n s, P s -> P (set_next n s).
Hypothesis P_events : forall e s, P s -> P (set_events e s).
Hypothesis P_hook : forall s, P s -> P (set_hasHookEvent true s).
Hypothesis P_target : forall t s, P s -> P (set_target t s).
Hypothesis P_diag : forall d s, P s -> P (add_diag d s).
Hypothesis P_call : forall c s, P s -> P (add_call c s).
Hypothesis P_hostcall : forall c s, P s -> P (add_hostcall c s).

Lemma keeps_ret {A} (a : A) : keeps P (ret a).
Proof. intros s H. exact H. Qed.

Lemma keeps_throw {A} (e : exn) : keeps P (@throw A e).
Proof. intros s H. exact H. Qed.

Lemma keeps_gets {A} (f : state -> A) : keeps P (gets f).
Proof. intros s H. exact H. Qed.

Lemma keeps_modify (f : state -> state) :
  (forall s, P s -> P (f s)) -> keeps P (modify f).
Proof. intros Hf s H. apply Hf, H. Qed.

Lemma keeps_bind {A B} (m : M A) (k : A -> M B) :
  keeps P m -> (forall a, keeps P (k a)) -> keeps P (bind m k).
Proof.
  intros Hm Hk s H. specialize (Hm s H). unfold post, bind in *.
  destruct (m s) as [a s'| e s'|]; simpl in *; auto.
  apply (Hk a s' Hm).
Qed.

Lemma keeps_for_each {A} (body : A -> M unit) (l : list A) :
  (forall x, keeps P (body x)) -> keeps P (for_each body l).
Proof.
  intros Hb. induction l as [|x l IH]; simpl.
  - apply keeps_ret.
  - apply keeps_bind; [apply Hb | intros _; apply IH].
Qed.

Lemma keeps_alloc (o : object) : keeps P (alloc o).
Proof. intros s H. unfold post, alloc; simpl. auto. Qed.

Lemma keeps_set_fns (v x : value) : keeps P (set_fns v x).
Proof.
  destruct v; try apply keeps_throw.
  apply keeps_modify. auto.
Qed.

Lemma keeps_invokeWithErrorHandling (apply : applier) handler context args vm info :
  keeps P (apply handler context args) ->
  keeps P (invokeWithErrorHandling apply handler context args vm info).
Proof.
  intros Ha s H. specialize (Ha s H).
  unfold post, invokeWithErrorHandling in *.
  destruct (apply handler context args s); simpl in *; auto.
Qed.

Create HintDb keeps_db.

Ltac keeps_step :=
  first
    [ solve [eauto 2 with keeps_db nocore]
    | progress cbv zeta
    | apply keeps_ret | apply keeps_throw | apply keeps_gets | apply keeps_alloc
    | apply keeps_set_fns
    | apply keeps_bind; [|intros ?]
    | apply keeps_for_each; intros ?
    | apply keeps_modify; intros ? ?;
      unfold set_event, set_elems; auto
    | match goal with
      | |- keeps _ (match ?x with _ => _ end) => destruct x
      end ].

Ltac keeps_auto := repeat keeps_step.

Lemma keeps_on_one event fn : keeps P (on_one event fn).
Proof. unfold on_one, push. keeps_auto. Qed.
Local Hint Resolve keeps_on_one : keeps_db.

Lemma keeps_Vue_on event fn : keeps P (Vue_on event fn).
Proof. unfold Vue_on. keeps_auto. Qed.
Local Hint Resolve keeps_Vue_on : keeps_db.

Lemma keeps_off_one event fn : keeps P (off_one event fn).
Proof. unfold off_one. keeps_auto. Qed.
Local Hint Resolve keeps_off_one : keeps_db.

Lemma keeps_Vue_off args : keeps P (Vue_off args).
Proof. unfold Vue_off. keeps_auto. Qed.
Local Hint Resolve keeps_Vue_off : keeps_db.

Lemma keeps_Vue_once event fn : keeps P (Vue_once event fn).
Proof. unfold Vue_once. keeps_auto. Qed.
Local Hint Resolve keeps_Vue_once : keeps_db.

Lemma keeps_createFnInvoker fns vm : keeps P (createFnInvoker fns vm).
Proof. unfold createFnInvoker. keeps_auto. Qed.
Local Hint Resolve keeps_createFnInvoker : keeps_db.

Lemma keeps_createOnceHandler event fn : keeps P (createOnceHandler event fn).
Proof. unfold createOnceHandler. keeps_auto. Qed.
Local Hint Resolve keeps_createOnceHandler : keeps_db.

Lemma keeps_add event fn : keeps P (add event fn).
Proof. unfold add. keeps_auto. Qed.
Local Hint Resolve keeps_add : keeps_db.

Lemma keeps_remove event fn : keeps P (remove event fn).
Proof. unfold remove. keeps_auto. Qed.
Local Hint Resolve keeps_remove : keeps_db.

Lemma bus_host_keeps : host_keeps P bus_host.
Proof.
  repeat split; simpl; intros; auto with keeps_db.
Qed.

Lemma trace_host_keeps : host_keeps P trace_host.
Proof.
  repeat split; simpl; intros.
  - apply keeps_modify; auto.
  - apply keeps_modify; auto.
  - apply keeps_createOnceHandler.
Qed.

Lemma keeps_update_entry h oldOn vm on name :
  host_keeps P h -> keeps P (update_entry h oldOn vm on name).
Proof.
  intros (Ha & Hr & Ho). unfold update_entry, warn.
  keeps_auto; auto.
Qed.

Lemma keeps_update_loop h oldOn vm names :
  host_keeps P h -> forall on, keeps P (update_loop h oldOn vm names on).
Proof.
  intros Hh. induction names as [|n names IH]; intros on; simpl.
  - apply keeps_ret.
  - apply keeps_bind; [now apply keeps_update_entry | intros on'; apply IH].
Qed.

Lemma keeps_updateListeners h on oldOn vm :
  host_keeps P h -> keeps P (updateListeners h on oldOn vm).
Proof.
  intros Hh. unfold updateListeners, remove_entry.
  apply keeps_bind; [now apply keeps_update_loop|intros on'].
  destruct Hh as (Ha & Hr & Ho). keeps_auto.
Qed.

Lemma keeps_updateComponentListeners listeners oldListeners :
  keeps P (updateComponentListeners listeners oldListeners).
Proof.
  pose proof (keeps_updateListeners bus_host) as Hu.
  pose proof bus_host_keeps as Hb.
  unfold updateComponentListeners. keeps_auto; auto.
Qed.

Lemma keeps_invoke_all apply args info cbs :
  applier_keeps P apply -> keeps P (invoke_all apply args info cbs).
Proof.
  intros Ha. induction cbs as [|cb cbs IH]; simpl.
  - apply keeps_ret.
  - apply keeps_bind; [|intros _; apply IH].
    apply keeps_invokeWithErrorHandling, Ha.
Qed.

Lemma keeps_emit_loop apply cbs args info n :
  applier_keeps P apply -> forall i, keeps P (emit_loop apply cbs args info i n).
Proof.
  intros Ha. induction n as [|n IH]; intros i; simpl.
  - apply keeps_ret.
  - pose proof (IH (S i)). unfold read_cbs. keeps_auto.
    apply keeps_invokeWithErrorHandling, Ha.
Qed.

Lemma keeps_Vue_emit apply event args :
  applier_keeps P apply -> keeps P (Vue_emit apply event args).
Proof.
  intros Ha. pose proof (keeps_emit_loop apply) as Hl.
  unfold Vue_emit, emit_tip. keeps_auto; auto.
  all: try (destruct (_ && _); keeps_auto; auto).
Qed.

Lemma keeps_invoker apply self vm args :
  applier_keeps P apply -> keeps P (invoker apply self vm args).
Proof.
  intros Ha. unfold invoker. keeps_auto.
  all: try (apply keeps_invokeWithErrorHandling, Ha).
Qed.

Lemma keeps_onceHandler apply self event fn t args :
  applier_keeps P apply -> keeps P (onceHandler apply self event fn t args).
Proof.
  intros Ha. unfold onceHandler. keeps_auto; try apply Ha.
  all: try (destruct (negb _); keeps_auto).
Qed.

Lemma keeps_once_on apply self event fn args :
  applier_keeps P apply -> keeps P (once_on apply self event fn args).
Proof.
  intros Ha. unfold once_on. keeps_auto; try apply Ha.
Qed.

Lemma keeps_run_cmd apply c :
  applier_keeps P apply -> keeps P (run_cmd apply c).
Proof.
  intros Ha. pose proof (keeps_Vue_emit apply) as He.
  destruct c; simpl; keeps_auto.
Qed.

Lemma keeps_call fuel : applier_keeps P (call fuel).
Proof.
  induction fuel as [|n IH]; intros f this args.
  - intros s H. exact I.
  - simpl. destruct f; try apply keeps_throw.
    apply keeps_bind; [apply keeps_gets|].
    intros [[[body fin|vm|event fn t|event fn|l] x y]|]; try apply keeps_throw.
    + pose proof (keeps_run_cmd (call n)) as Hc.
      keeps_auto; auto.
      all: try (destruct fin; simpl; keeps_auto).
    + now apply keeps_invoker.
    + now apply keeps_onceHandler.
    + now apply keeps_once_on.
Qed.

Lemma keeps_run_op fuel o : keeps P (run_op fuel o).
Proof.
  pose proof (keeps_call fuel) as Hc.
  pose proof keeps_updateComponentListeners as Hu.
  destruct o; simpl.
  - now apply keeps_run_cmd.
  - keeps_auto; try apply Hc.
  - keeps_auto.
Qed.

End Frame.

(** ** More fuel never changes a result *)

Lemma m_le_refl {A} (m : M A) : m_le m m.
Proof. intros s. now right. Qed.

Lemma m_le_bind {A B} (m1 m2 : M A) (k1 k2 : A -> M B) :
  m_le m1 m2 -> (forall a, m_le (k1 a) (k2 a)) -> m_le (bind m1 k1) (bind m2 k2).
Proof.
  intros Hm Hk s. unfold bind. destruct (Hm s) as [H|H]; rewrite H.
  - now left.
  - destruct (m2 s); [apply Hk | now right | now right].
Qed.

Lemma m_le_for_each {A} (b1 b2 : A -> M unit) (l : list A) :
  (forall x, m_le (b1 x) (b2 x)) -> m_le (for_each b1 l) (for_each b2 l).
Proof.
  intros Hb. induction l as [|x l IH]; simpl.
  - apply m_le_refl.
  - apply m_le_bind; [apply Hb | intros _; apply IH].
Qed.

Lemma m_le_invokeWithErrorHandling (a1 a2 : applier) handler context args vm info :
  applier_le a1 a2 ->
  m_le (invokeWithErrorHandling a1 handler context args vm info)
       (invokeWithErrorHandling a2 handler context args vm info).
Proof.
  intros Ha s. unfold invokeWithErrorHandling.
  destruct (Ha handler context args s) as [H|H]; rewrite H; [now left|now right].
Qed.

Lemma m_le_emit_loop (a1 a2 : applier) cbs args info n :
  applier_le a1 a2 ->
  forall i, m_le (emit_loop a1 cbs args info i n) (emit_loop a2 cbs args info i n).
Proof.
  intros Ha. induction n as [|n IH]; intros i; simpl.
  - apply m_le_refl.
  - apply m_le_bind; [apply m_le_refl|]. intros cb.
    apply m_le_bind; [now apply m_le_invokeWithErrorHandling|].
    intros _. apply IH.
Qed.

Lemma m_le_Vue_emit (a1 a2 : applier) event args :
  applier_le a1 a2 -> m_le (Vue_emit a1 event args) (Vue_emit a2 event args).
Proof.
  intros Ha. unfold Vue_emit.
  apply m_le_bind; [apply m_le_refl|]. intros _.
  apply m_le_bind; [apply m_le_refl|]. intros [[a|]|]; try apply m_le_refl.
  apply m_le_bind; [|intros _; apply m_le_refl].
  apply m_le_bind; [apply m_le_refl|]. intros live.
  now apply m_le_emit_loop.
Qed.

Lemma m_le_invoker (a1 a2 : applier) self vm args :
  applier_le a1 a2 -> m_le (invoker a1 self vm args) (invoker a2 self vm args).
Proof.
  intros Ha. unfold invoker.
  apply m_le_bind; [apply m_le_refl|]. intros fns.
  apply m_le_bind; [apply m_le_refl|]. intros [cloned|].
  - apply m_le_bind; [|intros _; apply m_le_refl].
    apply m_le_for_each. intros cb.
    apply m_le_bind; [now apply m_le_invokeWithErrorHandling|].
    intros _. apply m_le_refl.
  - now apply m_le_invokeWithErrorHandling.
Qed.

Lemma m_le_onceHandler (a1 a2 : applier) self event fn t args :
  applier_le a1 a2 ->
  m_le (onceHandler a1 self event fn t args) (onceHandler a2 self event fn t args).
Proof.
  intros Ha. unfold onceHandler.
  apply m_le_bind; [apply Ha|]. intros res. apply m_le_refl.
Qed.

Lemma m_le_once_on (a1 a2 : applier) self event fn args :
  applier_le a1 a2 ->
  m_le (once_on a1 self event fn args) (once_on a2 self event fn args).
Proof.
  intros Ha. unfold once_on.
  apply m_le_bind; [apply m_le_refl|]. intros _.
  apply m_le_bind; [apply Ha|]. intros _. apply m_le_refl.
Qed.

Lemma m_le_run_cmd (a1 a2 : applier) (c : cmd) :
  applier_le a1 a2 -> m_le (run_cmd a1 c) (run_cmd a2 c).
Proof.
  intros Ha. destruct c; simpl; try apply m_le_refl.
  apply m_le_bind; [now apply m_le_Vue_emit | intros _; apply m_le_refl].
Qed.

Lemma call_le_S (n : nat) : applier_le (call n) (call (S n)).
Proof.
  induction n as [|n IH]; intros f this args.
  - intros s. now left.
  - change (call (S n) f this args) with
      (match f with
       | VObj r =>
           let* o := gets (fun s => heap s !! r) in
           match o with
           | Some (Object (UserFn body fin) _ _) =>
               modify (add_call (Call r this args)) ;;
               for_each (run_cmd (call n)) body ;;
               finish fin
           | Some (Object (Invoker vm) _ _) => invoker (call n) r vm args
           | Some (Object (OnceHandler event fn t) _ _) =>
               onceHandler (call n) r event fn t args
           | Some (Object (OnceOn event fn) _ _) => once_on (call n) r event fn args
           | _ => throw TypeError
           end
       | _ => throw TypeError
       end).
    change (call (S (S n)) f this args) with
      (match f with
       | VObj r =>
           let* o := gets (fun s => heap s !! r) in
           match o with
           | Some (Object (UserFn body fin) _ _) =>
               modify (add_call (Call r this args)) ;;
               for_each (run_cmd (call (S n))) body ;;
               finish fin
           | Some (Object (Invoker vm) _ _) => invoker (call (S n)) r vm args
           | Some (Object (OnceHandler event fn t) _ _) =>
               onceHandler (call (S n)) r event fn t args
           | Some (Object (OnceOn event fn) _ _) =>
               once_on (call (S n)) r event fn args
           | _ => throw TypeError
           end
       | _ => throw TypeError
       end).
    destruct f; try apply m_le_refl.
    apply m_le_bind; [apply m_le_refl|].
    intros [[[body fin|vm|event fn t|event fn|l] x y]|]; try apply m_le_refl.
    + apply m_le_bind; [apply m_le_refl|]. intros _.
      apply m_le_bind; [|intros _; apply m_le_refl].
      apply m_le_for_each. intros c. now apply m_le_run_cmd.
    + now apply m_le_invoker.
    + now apply m_le_onceHandler.
    + now apply m_le_once_on.
Qed.

Lemma call_fuel_mono (n m : nat) : n <= m -> applier_le (call n) (call m).
Proof.
  induction 1 as [|m' Hle IH].
  - intros f this args. apply m_le_refl.
  - intros f this args s. destruct (IH f this args s) as [H|H]; [now left|].
    rewrite H. apply call_le_S.
Qed.

(** A result obtained with some fuel is the result with any larger
    fuel. *)
Lemma emit_fuel_mono (n m : nat) (event : string) (args : list value)
    (s : state) (o : outcome component) :
  n <= m -> emit n event args s = o -> o <> Timeout -> emit m event args s = o.
Proof.
  intros Hle Hn Ho.
  destruct (m_le_Vue_emit (call n) (call m) event args
              (call_fuel_mono n m Hle) s) as [H|H].
  - unfold emit in Hn. congruence.
  - unfold emit in *. congruence.
Qed.

(** ** The hook flag *)

Lemma off_one_hook (event : string) (fn : value) (s : state) :
  exists s', final_state (off_one event fn s) = Some s' /\
             _hasHookEvent s' = _hasHookEvent s.
Proof.
  unfold off_one. monad_unfold.
  destruct (_events s !! event) as [[a|]|]; [|eauto..].
  destruct (negb (truthy fn)); [eauto|].
  destruct (scan _ _ _ _); eauto.
Qed.

Lemma for_each_off_one_hook (fn : value) (l : list string) (s : state) :
  exists s', final_state (for_each (fun e => off_one e fn) l s) = Some s' /\
             _hasHookEvent s' = _hasHookEvent s.
Proof.
  revert s. induction l as [|e l IH]; intros s; simpl.
  - eauto.
  - unfold bind. destruct (off_one_hook e fn s) as (s1 & H1 & Hh).
    destruct (off_one e fn s) as [[] s2|x s2|]; simpl in H1; inversion H1; subst.
    + destruct (IH s1) as (s' & H' & Hh'). exists s'. split; [assumption|].
      congruence.
    + eauto.
Qed.

Lemma Vue_off_hook (args : option (evarg * value)) (s : state) :
  exists s', final_state (Vue_off args s) = Some s' /\
             _hasHookEvent s' = _hasHookEvent s.
Proof.
  unfold Vue_off. destruct args as [[[e|l] fn]|].
  - unfold bind. destruct (off_one_hook e fn s) as (s1 & H1 & Hh).
    destruct (off_one e fn s) as [[] s2|x s2|]; simpl in H1; inversion H1; subst;
      eauto.
  - unfold bind. destruct (for_each_off_one_hook fn l s) as (s1 & H1 & Hh).
    destruct (for_each _ l s) as [[] s2|x s2|]; simpl in H1; inversion H1; subst;
      eauto.
  - cbv [bind modify ret final_state]. eauto.
Qed.

Lemma on_one_hook (event : string) (fn : value) (s : state) :
  hookRE_test event = true ->
  exists s', on_one event fn s = Done tt s' /\ _hasHookEvent s' = true.
Proof.
  intros Hh. unfold on_one, push, alloc. monad_unfold. rewrite Hh.
  destruct (_events s !! event) as [[a|]|]; eauto.
Qed.

(** C10. [$off()] replaces the event mapping by a fresh empty one and
    leaves [_hasHookEvent] as it was; no form of [$off] changes the flag;
    subscribing to a name matching [hook:] sets it; once it is set, no
    sequence of bus operations, function applications and reconciliation
    passes clears it; [initEvents] does. *)
Theorem hasHookEvent_only_cleared_by_initEvents :
  (forall s, Vue_off None s = Done Vm (set_events ∅ s) /\
             _hasHookEvent (set_events ∅ s) = _hasHookEvent s) /\
  (forall args s, exists s', final_state (Vue_off args s) = Some s' /\
                             _hasHookEvent s' = _hasHookEvent s) /\
  (forall event fn s,
      hookRE_test event = true ->
      exists s', Vue_on (EvStr event) fn s = Done Vm s' /\
                 _hasHookEvent s' = true) /\
  (forall fuel ops s,
      _hasHookEvent s = true ->
      post (for_each (run_op fuel) ops) s (fun s' => _hasHookEvent s' = true)) /\
  (forall s, exists s', initEvents None s = Done None s' /\
                        _hasHookEvent s' = false).
Proof.
  split; [|split; [|split; [|split]]].
  - intros s. split; reflexivity.
  - apply Vue_off_hook.
  - intros event fn s Hh. destruct (on_one_hook event fn s Hh) as (s' & H1 & H2).
    exists s'. split; [|assumption]. unfold Vue_on, bind. now rewrite H1.
  - intros fuel ops s Hs.
    apply (keeps_for_each (fun s => _hasHookEvent s = true)); [|assumption].
    intros o. apply keeps_run_op; auto.
  - intros s. eexists. split; reflexivity.
Qed.

Lemma hasHookEvent_only_cleared_by_initEvents_witness :
  let s0 := fresh_state [callback [COff None] (Return VUndef)] false in
  exists s1,
    Vue_on (EvStr "hook:mounted") (VObj 0) s0 = Done Vm s1 /\
    _hasHookEvent s1 = true /\
    post (for_each (run_op 2)
            [OCmd (CEmit "hook:mounted" []); OCmd (COff None);
             OCmd (COff (Some (EvStr "hook:mounted", VUndef)))]) s1
         (fun s' => _hasHookEvent s' = true).
Proof.
  intros s0.
  destruct hasHookEvent_only_cleared_by_initEvents as (_ & _ & Hon & Hops & _).
  destruct (Hon "hook:mounted" (VObj 0) s0 eq_refl) as (s1 & H1 & H2).
  exists s1. split; [exact H1|]. split; [exact H2|].
  apply Hops. exact H2.
Defined.

(** ** Emission *)

(** The development-only tip touches nothing but the diagnostic channel. *)
Lemma emit_tip_done (event : string) (s : state) :
  exists s1, emit_tip event s = Done tt s1 /\
             heap s1 = heap s /\ _events s1 = _events s /\
             calls s1 = calls s /\ _hasHookEvent s1 = _hasHookEvent s /\
             (s1 = s \/ s1 = add_diag (Tip (toLowerCase event) event) s).
Proof.
  unfold emit_tip. monad_unfold.
  destruct (production s); [exists s; auto 10|].
  destruct (negb (toLowerCase event =? event)%string &&
            slot_truthy (_events s !! toLowerCase event)).
  - eexists. split; [reflexivity|]. auto 10.
  - exists s. auto 10.
Qed.


(** Iterating over the private copy reads the copied entries in order. *)
Lemma emit_loop_copy (apply : applier) (l : list value) (args : list value)
    (info : string) (n : nat) :
  forall i s, i + n = length l ->
  emit_loop apply (Copy l) args info i n s =
  invoke_all apply args info (drop i l) s.
Proof.
  induction n as [|n IH]; intros i s Hlen; simpl.
  - rewrite drop_ge by lia. reflexivity.
  - destruct (lookup_lt_is_Some_2 l i) as [cb Hcb]; [lia|].
    rewrite (drop_S _ _ _ Hcb). simpl.
    unfold bind at 1. unfold read_cbs, gets. rewrite Hcb. simpl.
    unfold bind.
    destruct (invokeWithErrorHandling apply cb (Some Vm) args (Some Vm) info s);
      try reflexivity.
    apply IH. lia.
Qed.

(** With at most one entry the live array is read once, before any
    callback has run. *)
Lemma emit_loop_live (apply : applier) (a : ref) (args : list value)
    (info : string) (s : state) :
  length (elems (heap s) a) <= 1 ->
  emit_loop apply (Live a) args info 0 (length (elems (heap s) a)) s =
  invoke_all apply args info (elems (heap s) a) s.
Proof.
  intros Hlen. destruct (elems (heap s) a) as [|cb [|cb' l]] eqn:E; simpl in *.
  - reflexivity.
  - unfold bind at 1. unfold read_cbs, gets. rewrite E. simpl. reflexivity.
  - lia.
Qed.

(** The emission invokes the sequence registered when it starts. *)
Lemma Vue_emit_snapshot (apply : applier) (event : string) (args : list value)
    (s : state) :
  Vue_emit apply event args s =
  (emit_tip event ;;
   invoke_all apply args (emit_info event) (subscribed s event) ;;
   ret Vm) s.
Proof.
  unfold Vue_emit.
  destruct (emit_tip_done event s) as (s1 & Htip & Hheap & Hev & _).
  cbv [bind gets]. rewrite Htip. unfold subscribed. rewrite Hev.
  destruct (_events s !! event) as [[a|]|]; try reflexivity.
  rewrite Hheap.
  destruct (1 <? length (elems (heap s) a))%nat eqn:Hlen.
  - rewrite emit_loop_copy by reflexivity. rewrite drop_0. reflexivity.
  - apply Nat.ltb_ge in Hlen. rewrite <- Hheap.
    rewrite emit_loop_live by (rewrite Hheap; assumption). reflexivity.
Qed.


(** ** Error isolation *)







(** ** The bus refines the subscription lists *)

Lemma elems_alter_eq (h : gmap ref object) (a : ref) (l : list value) :
  is_arr h a -> elems (alter (arr_set l) a h) a = l.
Proof.
  intros (l0 & x & y & H). unfold elems.
  rewrite lookup_alter_eq, H. reflexivity.
Qed.

Lemma elems_alter_ne (h : gmap ref object) (a a' : ref) (l : list value) :
  a <> a' -> elems (alter (arr_set l) a h) a' = elems h a'.
Proof. intros Hne. unfold elems. now rewrite lookup_alter_ne. Qed.

Lemma is_arr_alter (h : gmap ref object) (a a' : ref) (l : list value) :
  is_arr (alter (arr_set l) a h) a' <-> is_arr h a'.
Proof.
  unfold is_arr. destruct (decide (a = a')) as [->|Hne].
  - rewrite lookup_alter_eq.
    destruct (h !! a') as [[[] x y]|]; simpl; split;
      intros (l' & x' & y' & H); inversion H; eauto.
  - now rewrite lookup_alter_ne.
Qed.

Lemma is_Some_alter_arr (h : gmap ref object) (a r : ref) (l : list value) :
  is_Some (alter (arr_set l) a h !! r) <-> is_Some (h !! r).
Proof.
  destruct (decide (a = r)) as [->|Hne].
  - rewrite lookup_alter_eq. apply fmap_is_Some.
  - now rewrite lookup_alter_ne.
Qed.

Lemma prop_fn_alter (h : gmap ref object) (a : ref) (l : list value) (v : value) :
  prop_fn (alter (arr_set l) a h) v = prop_fn h v.
Proof.
  destruct v; simpl; try reflexivity. f_equal.
  destruct (decide (a = r)) as [->|Hne].
  - rewrite lookup_alter_eq. now destruct (h !! r) as [[[] x y]|].
  - now rewrite lookup_alter_ne.
Qed.

Lemma prop_fn_insert_fresh (h : gmap ref object) (n : ref) (l : list value)
    (v : value) :
  h !! n = None ->
  prop_fn (<[n := Object (ArrayObj l) VUndef VUndef]> h) v = prop_fn h v.
Proof.
  intros Hn. destruct v; simpl; try reflexivity. f_equal.
  destruct (decide (n = r)) as [->|Hne].
  - now rewrite lookup_insert_eq, Hn.
  - now rewrite lookup_insert_ne.
Qed.

Lemma is_match_heap (h h' : gmap ref object) (fn cb : value) :
  (forall v, prop_fn h v = prop_fn h' v) -> is_match h fn cb = is_match h' fn cb.
Proof. intros H. unfold is_match. now rewrite H. Qed.

Lemma remove_first_none {A} (p : A -> bool) (l : list A) :
  Forall (fun y => p y = false) l -> remove_first p l = l.
Proof.
  induction 1 as [|y l Hy _ IH]; simpl; [reflexivity|].
  now rewrite Hy, IH.
Qed.

Lemma remove_first_app {A} (p : A -> bool) (l1 l2 : list A) (x : A) :
  Forall (fun y => p y = false) l1 -> p x = true ->
  remove_first p (l1 ++ x :: l2) = l1 ++ l2.
Proof.
  intros H Hx. induction H as [|y l Hy _ IH]; simpl.
  - now rewrite Hx.
  - now rewrite Hy, IH.
Qed.

Lemma remove_last_none {A} (p : A -> bool) (l : list A) :
  Forall (fun y => p y = false) l -> remove_last p l = l.
Proof.
  intros H. unfold remove_last.
  rewrite remove_first_none by now apply List.Forall_rev.
  apply rev_involutive.
Qed.

Lemma remove_last_app {A} (p : A -> bool) (l1 l2 : list A) (x : A) :
  Forall (fun y => p y = false) l2 -> p x = true ->
  remove_last p (l1 ++ x :: l2) = l1 ++ l2.
Proof.
  intros H Hx. unfold remove_last.
  rewrite rev_app_distr. simpl. rewrite <- app_assoc. simpl.
  rewrite remove_first_app by (try apply List.Forall_rev; assumption).
  rewrite rev_app_distr, !rev_involutive. reflexivity.
Qed.

Lemma sub_one_ext (event : string) (fn : value) (b1 b2 : subscriptions) :
  same_subs b1 b2 -> same_subs (sub_one event fn b1) (sub_one event fn b2).
Proof. intros H e. unfold sub_one. now rewrite H. Qed.

Lemma unsub_one_ext h (event : string) (fn : value) (b1 b2 : subscriptions) :
  same_subs b1 b2 -> same_subs (unsub_one h event fn b1) (unsub_one h event fn b2).
Proof. intros H e. unfold unsub_one. now rewrite H. Qed.

Lemma on_one_effect (event : string) (fn : value) (s : state) :
  exists s', on_one event fn s = Done tt s' /\
    match _events s !! event with
    | Some (Some a) =>
        heap s' = alter (arr_set (elems (heap s) a ++ [fn])) a (heap s) /\
        _events s' = _events s /\ next s' = next s
    | _ =>
        heap s' = <[next s := Object (ArrayObj [fn]) VUndef VUndef]> (heap s) /\
        _events s' = <[event := Some (next s)]> (_events s) /\
        next s' = S (next s)
    end.
Proof.
  unfold on_one, push, alloc. monad_unfold.
  destruct (_events s !! event) as [[a|]|] eqn:E;
    (destruct (hookRE_test event); eexists; (split; [reflexivity|])).
  1,2: repeat split; reflexivity.
  all: cbn [heap _events next set_elems set_heap set_next set_event set_events
            set_hasHookEvent].
  all: unfold elems; rewrite lookup_insert_eq; cbn [app].
  all: rewrite alter_insert_eq; repeat split; reflexivity.
Qed.

Lemma bus_inv_fresh (s : state) : bus_inv s -> heap s !! next s = None.
Proof.
  intros I. destruct (heap s !! next s) eqn:E; [|reflexivity].
  pose proof (inv_next s I (next s) ltac:(eauto)). lia.
Qed.

Lemma is_arr_is_Some (h : gmap ref object) (a : ref) : is_arr h a -> is_Some (h !! a).
Proof. intros (l & x & y & H). eauto. Qed.

Lemma slot_lt_next (s : state) (e : string) (a : ref) :
  bus_inv s -> _events s !! e = Some (Some a) -> a < next s.
Proof.
  intros I H. apply (inv_next s I), is_arr_is_Some, (inv_arr s I e a H).
Qed.

Lemma sub_one_defined (event : string) (fn : value) (b : subscriptions) :
  isUndef fn = false ->
  (forall e, Forall (fun cb => isUndef cb = false) (b e)) ->
  forall e, Forall (fun cb => isUndef cb = false) (sub_one event fn b e).
Proof.
  intros Hfn Hb e. unfold sub_one. destruct (String.eqb e event); [|apply Hb].
  apply Forall_app. split; [apply Hb|]. now constructor.
Qed.

Lemma on_one_subscribed (s s' : state) (event : string) (fn : value) :
  bus_inv s -> on_one event fn s = Done tt s' ->
  same_subs (subscribed s') (sub_one event fn (subscribed s)).
Proof.
  intros I Hrun e. destruct (on_one_effect event fn s) as (s1 & Hrun1 & Heff).
  rewrite Hrun in Hrun1. inversion Hrun1; subst s1; clear Hrun1.
  unfold sub_one, subscribed.
  destruct (_events s !! event) as [[a|]|] eqn:E.
  - destruct Heff as (Hh & He & Hn). rewrite Hh, He.
    destruct (String.eqb_spec e event) as [Heq|Hne]; [subst e|].
    + rewrite E. apply elems_alter_eq. eapply inv_arr; eauto.
    + destruct (_events s !! e) as [[a'|]|] eqn:E'; try reflexivity.
      apply elems_alter_ne. intros ->. apply Hne.
      eapply inv_inj; eauto.
  - destruct Heff as (Hh & He & Hn). rewrite Hh, He.
    destruct (String.eqb_spec e event) as [Heq|Hne]; [subst e|].
    + rewrite lookup_insert_eq, E. unfold elems. now rewrite lookup_insert_eq.
    + rewrite lookup_insert_ne by congruence.
      destruct (_events s !! e) as [[a'|]|] eqn:E'; try reflexivity.
      unfold elems. rewrite lookup_insert_ne; [reflexivity|].
      pose proof (slot_lt_next s e a' I E'). lia.
  - destruct Heff as (Hh & He & Hn). rewrite Hh, He.
    destruct (String.eqb_spec e event) as [Heq|Hne]; [subst e|].
    + rewrite lookup_insert_eq, E. unfold elems. now rewrite lookup_insert_eq.
    + rewrite lookup_insert_ne by congruence.
      destruct (_events s !! e) as [[a'|]|] eqn:E'; try reflexivity.
      unfold elems. rewrite lookup_insert_ne; [reflexivity|].
      pose proof (slot_lt_next s e a' I E'). lia.
Qed.

Lemma on_one_bus_inv (s s' : state) (event : string) (fn : value) :
  bus_inv s -> isUndef fn = false -> on_one event fn s = Done tt s' ->
  bus_inv s' /\ (forall v, prop_fn (heap s') v = prop_fn (heap s) v).
Proof.
  intros I Hfn Hrun.
  pose proof (on_one_subscribed s s' event fn I Hrun) as Hsub.
  assert (Hdef : forall e, Forall (fun cb => isUndef cb = false) (subscribed s' e)).
  { intros e. rewrite Hsub. apply sub_one_defined; [assumption|]. apply I. }
  destruct (on_one_effect event fn s) as (s1 & Hrun1 & Heff).
  rewrite Hrun in Hrun1. inversion Hrun1; subst s1; clear Hrun1.
  assert (Hcases :
    (heap s' = alter (arr_set (subscribed s event ++ [fn]))
                     (default 0 (default None (_events s !! event))) (heap s) /\
     _events s' = _events s /\ next s' = next s /\
     slot_truthy (_events s !! event) = true) \/
    (heap s' = <[next s := Object (ArrayObj [fn]) VUndef VUndef]> (heap s) /\
     _events s' = <[event := Some (next s)]> (_events s) /\
     next s' = S (next s) /\ slot_truthy (_events s !! event) = false)).
  { unfold subscribed.
    destruct (_events s !! event) as [[a|]|]; [left|right|right]; simpl;
      intuition. }
  clear Heff. destruct Hcases as [(Hh & He & Hn & _)|(Hh & He & Hn & Hslot)].
  - split.
    + constructor; [| | |exact Hdef].
      * intros e a. rewrite He, Hh. intros H. apply is_arr_alter.
        eapply inv_arr; eauto.
      * intros e1 e2 a. rewrite He. apply I.
      * intros r. rewrite Hh, Hn, is_Some_alter_arr. apply I.
    + intros v. rewrite Hh. apply prop_fn_alter.
  - split.
    + constructor; [| | |exact Hdef].
      * intros e a. rewrite He, Hh. unfold is_arr.
        destruct (decide (event = e)) as [<-|Hne].
        -- rewrite lookup_insert_eq. intros [= <-]. rewrite lookup_insert_eq. eauto.
        -- rewrite lookup_insert_ne by assumption. intros H.
           rewrite lookup_insert_ne
             by (pose proof (slot_lt_next s e a I H); lia).
           eapply inv_arr; eauto.
      * intros e1 e2 a. rewrite He.
        destruct (decide (event = e1)) as [<-|Hne1];
          destruct (decide (event = e2)) as [<-|Hne2]; try reflexivity.
        -- rewrite lookup_insert_eq, lookup_insert_ne by assumption.
           intros [= <-] H. pose proof (slot_lt_next s e2 _ I H). lia.
        -- rewrite lookup_insert_eq, lookup_insert_ne by assumption.
           intros H [= <-]. pose proof (slot_lt_next s e1 _ I H). lia.
        -- rewrite !lookup_insert_ne by assumption. apply I.
      * intros r. rewrite Hh, Hn.
        destruct (decide (next s = r)) as [<-|Hne]; [lia|].
        rewrite lookup_insert_ne by assumption. intros H.
        pose proof (inv_next s I r H). lia.
    + intros v. rewrite Hh. apply prop_fn_insert_fresh, bus_inv_fresh, I.
Qed.

Lemma on_one_refines h0 (s : state) (b : subscriptions) (event : string)
    (fn : value) :
  refines h0 s b -> isUndef fn = false ->
  exists s', on_one event fn s = Done tt s' /\ refines h0 s' (sub_one event fn b).
Proof.
  intros (I & Hb & Hp) Hfn.
  destruct (on_one_effect event fn s) as (s' & Hrun & _).
  exists s'. split; [assumption|].
  destruct (on_one_bus_inv s s' event fn I Hfn Hrun) as (I' & Hp').
  split; [assumption|]. split.
  - intros e. rewrite (on_one_subscribed s s' event fn I Hrun).
    now apply sub_one_ext.
  - intros v. now rewrite Hp'.
Qed.

Lemma remove_last_defined (p : value -> bool) (l : list value) :
  Forall (fun cb => isUndef cb = false) l ->
  Forall (fun cb => isUndef cb = false) (remove_last p l).
Proof.
  intros H. unfold remove_last. apply List.Forall_rev.
  apply List.Forall_rev in H. induction H as [|y l' Hy H IH]; simpl.
  - constructor.
  - destruct (p y); [assumption|]. now constructor.
Qed.

Lemma set_elems_bus_inv (s : state) (event : string) (a : ref) (l : list value) :
  bus_inv s -> _events s !! event = Some (Some a) ->
  Forall (fun cb => isUndef cb = false) l ->
  bus_inv (set_elems a l s) /\
  (forall e, subscribed (set_elems a l s) e =
             if String.eqb e event then l else subscribed s e) /\
  (forall v, prop_fn (heap (set_elems a l s)) v = prop_fn (heap s) v).
Proof.
  intros I Hslot Hl.
  assert (Hsub : forall e, subscribed (set_elems a l s) e =
                           if String.eqb e event then l else subscribed s e).
  { intros e. unfold subscribed. simpl.
    destruct (String.eqb_spec e event) as [Heq|Hne]; [subst e|].
    - rewrite Hslot. apply elems_alter_eq. eapply inv_arr; eauto.
    - destruct (_events s !! e) as [[a'|]|] eqn:E'; try reflexivity.
      apply elems_alter_ne. intros ->. apply Hne. eapply inv_inj; eauto. }
  split; [|split; [exact Hsub|]].
  - constructor.
    + intros e a'. simpl. intros H. apply is_arr_alter. eapply inv_arr; eauto.
    + simpl. apply I.
    + intros r. simpl. rewrite is_Some_alter_arr. apply I.
    + intros e. rewrite Hsub. destruct (String.eqb e event); [assumption|apply I].
  - intros v. simpl. apply prop_fn_alter.
Qed.

Lemma off_one_refines h0 (s : state) (b : subscriptions) (event : string)
    (fn : value) :
  refines h0 s b ->
  exists s', off_one event fn s = Done tt s' /\
             refines h0 s' (unsub_one h0 event fn b).
Proof.
  intros (I & Hb & Hp).
  assert (Hm : forall cb, is_match (heap s) fn cb = is_match h0 fn cb).
  { intros cb. now apply is_match_heap. }
  destruct (slot_truthy (_events s !! event)) eqn:Hslot.
  2:{ exists s. split; [now apply off_one_no_sequence|].
      split; [assumption|]. split; [|assumption].
      intros e. unfold unsub_one. rewrite <- Hb.
      destruct (String.eqb_spec e event) as [Heq|Hne]; [subst e|reflexivity].
      rewrite (subscribed_no_slot _ _ Hslot). now destruct (truthy fn). }
  destruct (_events s !! event) as [[a|]|] eqn:E; try discriminate.
  destruct (truthy fn) eqn:Hfn.
  - destruct (off_one_callback s event fn Hfn (inv_defined s I event))
      as [[Hnone Hoff] | (a' & l1 & x & l2 & Hs & Hcbs & Hx & Hl2 & Hoff & _)].
    + exists s. split; [assumption|]. split; [assumption|]. split; [|assumption].
      intros e. unfold unsub_one. rewrite <- Hb, Hfn.
      destruct (String.eqb_spec e event) as [Heq|Hne]; [subst e|reflexivity].
      symmetry. apply remove_last_none.
      eapply Forall_impl; [exact Hnone|]. intros cb Hcb. cbv beta in *.
      now rewrite <- Hm.
    + rewrite E in Hs. inversion Hs; subst a'.
      assert (Hdef : Forall (fun cb => isUndef cb = false) (l1 ++ l2)).
      { pose proof (inv_defined s I event) as Hd. rewrite Hcbs in Hd.
        apply Forall_app in Hd as [Hd1 Hd2]. apply Forall_cons in Hd2 as [_ Hd2].
        apply Forall_app. now split. }
      destruct (set_elems_bus_inv s event a (l1 ++ l2) I E Hdef)
        as (I' & Hsub & Hp').
      exists (set_elems a (l1 ++ l2) s). split; [assumption|].
      split; [assumption|]. split.
      * intros e. rewrite Hsub. unfold unsub_one. rewrite <- Hb, Hfn.
        destruct (String.eqb_spec e event) as [Heq|Hne]; [subst e|reflexivity].
        rewrite Hcbs. symmetry. apply remove_last_app.
        -- eapply Forall_impl; [exact Hl2|]. intros cb Hcb. cbv beta in *.
           now rewrite <- Hm.
        -- now rewrite <- Hm.
      * intros v. now rewrite Hp'.
  - exists (set_event event None s). split.
    { unfold off_one. monad_unfold. now rewrite E, Hfn. }
    assert (Hsub : forall e, subscribed (set_event event None s) e =
                             if String.eqb e event then [] else subscribed s e).
    { intros e. unfold subscribed. simpl.
      destruct (String.eqb_spec e event) as [Heq|Hne]; [subst e|].
      - now rewrite lookup_insert_eq.
      - now rewrite lookup_insert_ne by congruence. }
    split; [|split; [|exact Hp]].
    + constructor.
      * intros e a'. simpl.
        destruct (decide (event = e)) as [<-|Hne].
        -- now rewrite lookup_insert_eq.
        -- rewrite lookup_insert_ne by assumption. apply I.
      * intros e1 e2 a'. simpl.
        destruct (decide (event = e1)) as [<-|Hne1];
          [now rewrite lookup_insert_eq|].
        destruct (decide (event = e2)) as [<-|Hne2];
          [now rewrite (lookup_insert_eq (_events s))|].
        rewrite !lookup_insert_ne by assumption. apply I.
      * simpl. apply I.
      * intros e. rewrite Hsub. destruct (String.eqb e event); [constructor|apply I].
    + intros e. rewrite Hsub. unfold unsub_one. rewrite <- Hb, Hfn.
      now destruct (String.eqb e event).
Qed.

Lemma for_each_on_one_refines h0 (fn : value) (names : list string) :
  isUndef fn = false ->
  forall (s : state) (b : subscriptions),
  refines h0 s b ->
  exists s', for_each (fun e => on_one e fn) names s = Done tt s' /\
             refines h0 s' (fold_left (fun b e => sub_one e fn b) names b).
Proof.
  intros Hfn. induction names as [|e names IH]; intros s b R; simpl.
  - exists s. now split.
  - destruct (on_one_refines h0 s b e fn R Hfn) as (s1 & H1 & R1).
    destruct (IH s1 _ R1) as (s' & H' & R').
    exists s'. split; [|assumption]. unfold bind. now rewrite H1.
Qed.

Lemma for_each_off_one_refines h0 (fn : value) (names : list string) :
  forall (s : state) (b : subscriptions),
  refines h0 s b ->
  exists s', for_each (fun e => off_one e fn) names s = Done tt s' /\
             refines h0 s' (fold_left (fun b e => unsub_one h0 e fn b) names b).
Proof.
  induction names as [|e names IH]; intros s b R; simpl.
  - exists s. now split.
  - destruct (off_one_refines h0 s b e fn R) as (s1 & H1 & R1).
    destruct (IH s1 _ R1) as (s' & H' & R').
    exists s'. split; [|assumption]. unfold bind. now rewrite H1.
Qed.

Lemma run_busop_refines h0 (o : busop) (s : state) (b : subscriptions) :
  refines h0 s b -> busop_typed o ->
  exists s', run_busop o s = Done tt s' /\ refines h0 s' (spec_busop h0 o b).
Proof.
  intros R Hty. destruct o as [event fn|[[event fn]|]]; simpl in *.
  - destruct (for_each_on_one_refines h0 fn (names_of event) Hty s b R)
      as (s' & H' & R').
    exists s'. split; [|assumption].
    unfold Vue_on, bind. destruct event; simpl in *.
    + unfold bind in H'. destruct (on_one s0 fn s) as [[] s1| |]; try discriminate.
      now inversion H'.
    + now rewrite H'.
  - destruct (for_each_off_one_refines h0 fn (names_of event) s b R)
      as (s' & H' & R').
    exists s'. split; [|assumption].
    unfold Vue_off, bind. destruct event; simpl in *.
    + unfold bind in H'. destruct (off_one s0 fn s) as [[] s1| |]; try discriminate.
      now inversion H'.
    + now rewrite H'.
  - exists (set_events ∅ s). split; [reflexivity|].
    destruct R as (I & Hb & Hp). split; [|split; [|exact Hp]].
    + constructor; simpl.
      * intros e a. now rewrite lookup_empty.
      * intros e1 e2 a. now rewrite lookup_empty.
      * apply I.
      * intros e. unfold subscribed. simpl. rewrite lookup_empty. constructor.
    + intros e. unfold subscribed. simpl. now rewrite lookup_empty.
Qed.

(** Any sequence of subscribe and unsubscribe operations runs to the end
    and leaves the bus holding the subscription lists of the
    specification. *)
Lemma busops_refine h0 (ops : list busop) :
  Forall busop_typed ops ->
  forall (s : state) (b : subscriptions),
  refines h0 s b ->
  exists s', for_each run_busop ops s = Done tt s' /\
             refines h0 s' (spec_busops h0 ops b).
Proof.
  induction 1 as [|o ops Ho _ IH]; intros s b R; simpl.
  - exists s. now split.
  - destruct (run_busop_refines h0 o s b R Ho) as (s1 & H1 & R1).
    destruct (IH s1 _ R1) as (s' & H' & R').
    exists s'. split; [|assumption]. unfold bind. now rewrite H1.
Qed.

Lemma refines_init (s : state) : bus_inv s -> refines (heap s) s (subscribed s).
Proof. intros I. split; [assumption|]. split; [intros e|intros v]; reflexivity. Qed.

(** ** Emission to callbacks that do not touch the bus *)

Lemma call_quiet (n : nat) (r : ref) (fin : completion) (x y : value)
    (this : option component) (args : list value) (s : state) :
  heap s !! r = Some (Object (UserFn [] fin) x y) ->
  call (S n) (VObj r) this args s =
  match fin with
  | Return v => Done v (add_call (Call r this args) s)
  | Throw v => Raised (Thrown v) (add_call (Call r this args) s)
  end.
Proof.
  intros H. simpl. monad_unfold. rewrite H. now destruct fin.
Qed.




Lemma fresh_state_inv (objs : list object) (prod : bool) :
  bus_inv (fresh_state objs prod).
Proof.
  constructor; simpl.
  - intros e a. now rewrite lookup_empty.
  - intros e1 e2 a. now rewrite lookup_empty.
  - intros r [o Ho]. apply elem_of_list_to_map_2 in Ho.
    apply elem_of_zip_l in Ho. apply elem_of_seq in Ho. lia.
  - intros e. unfold subscribed. simpl. rewrite lookup_empty. constructor.
Qed.


(** A callback that unsubscribes a later callback while the emission is
    under way does not stop it from being invoked by that emission; the
    next emission no longer reaches it. *)
Example emit_iterates_over_a_copy :
  let s0 := fresh_state [callback [COff (Some (EvStr "e", VObj 1))] (Return VUndef);
                         callback [] (Return VUndef)] false in
  let s1 := state_after (Vue_on (EvStr "e") (VObj 0) ;;
                         Vue_on (EvStr "e") (VObj 1)) s0 in
  let s2 := state_after (emit 2 "e" []) s1 in
  let s3 := state_after (emit 2 "e" []) s2 in
  subscribed s1 "e" = [VObj 0; VObj 1] /\
  map call_fn (calls s2) = [0; 1] /\
  subscribed s2 "e" = [VObj 0] /\
  map call_fn (calls s3) = [0; 1; 0].
Proof. vm_compute. repeat split. Qed.



(** ** The listener reconciler *)

Lemma lookup_set_key_eq (m : declmap) (k : string) (v : value) :
  lookup_key (set_key m k v) k = v.
Proof.
  induction m as [|[k' v'] m IH]; simpl.
  - now rewrite String.eqb_refl.
  - destruct (String.eqb k' k) eqn:E; simpl; now rewrite E.
Qed.

Lemma lookup_set_key_ne (m : declmap) (k k' : string) (v : value) :
  k <> k' -> lookup_key (set_key m k v) k' = lookup_key m k'.
Proof.
  intros Hne. induction m as [|[k0 v0] m IH]; simpl.
  - apply String.eqb_neq in Hne. now rewrite Hne.
  - destruct (String.eqb k0 k) eqn:E; simpl.
    + apply String.eqb_eq in E. subst k0.
      apply String.eqb_neq in Hne. now rewrite Hne.
    + now rewrite IH.
Qed.

Lemma keys_set_key (m : declmap) (k : string) (v : value) :
  isUndef (lookup_key m k) = false -> map fst (set_key m k v) = map fst m.
Proof.
  induction m as [|[k0 v0] m IH]; simpl; [discriminate|].
  destruct (String.eqb k0 k) eqn:E; simpl; [reflexivity|].
  intros H. now rewrite IH.
Qed.

Lemma lookup_key_typed (m : declmap) (k : string) :
  declmap_typed m -> handler_or_missing (lookup_key m k).
Proof.
  induction 1 as [|[k0 v0] m H0 _ IH]; simpl; [exact I|].
  now destruct (String.eqb k0 k).
Qed.

Lemma lookup_key_absent (m : declmap) (k : string) :
  ~ In k (map fst m) -> lookup_key m k = VUndef.
Proof.
  induction m as [|[k0 v0] m IH]; simpl; [reflexivity|].
  intros H. destruct (String.eqb_spec k0 k) as [->|Hne]; [tauto|].
  apply IH. tauto.
Qed.

(** The first two branches never reach the host when the value is
    unchanged, and the third never does: the payload of the registered
    handler is replaced and the handler is kept in the new map. *)
Lemma update_entry_unchanged (h : host) (oldOn : declmap)
    (vm : option component) (on : declmap) (name : string) (s : state) :
  isUndef (lookup_key on name) = false ->
  strict_eq (lookup_key on name) (lookup_key oldOn name) = true ->
  update_entry h oldOn vm on name s = Done on s.
Proof.
  intros Hcur Heq. unfold update_entry. rewrite Hcur.
  assert (Hold : isUndef (lookup_key oldOn name) = false).
  { destruct (lookup_key on name), (lookup_key oldOn name); simpl in *;
      congruence. }
  now rewrite Hold, Heq.
Qed.

Lemma update_entry_changed (h : host) (oldOn : declmap)
    (vm : option component) (on : declmap) (name : string) (s : state)
    (r : ref) :
  lookup_key oldOn name = VObj r ->
  isUndef (lookup_key on name) = false ->
  strict_eq (lookup_key on name) (VObj r) = false ->
  update_entry h oldOn vm on name s =
  Done (set_key on name (VObj r))
       (set_heap (alter (fun o => Object (obj_code o) (lookup_key on name) (obj_fn o))
                        r (heap s)) s).
Proof.
  intros Hold Hcur Hne. unfold update_entry. rewrite Hcur, Hold, Hne.
  reflexivity.
Qed.

Lemma update_entry_gone (h : host) (oldOn : declmap) (vm : option component)
    (on : declmap) (name : string) (s : state) :
  isUndef (lookup_key on name) = true ->
  exists s', update_entry h oldOn vm on name s = Done on s'.
Proof.
  intros Hcur. unfold update_entry. rewrite Hcur. unfold warn. monad_unfold.
  destruct (production s); eauto.
Qed.

Lemma update_entry_trace (oldOn : declmap) (vm : option component)
    (on : declmap) (name : string) (s : state) :
  handler_or_missing (lookup_key oldOn name) ->
  exists on' s',
    update_entry trace_host oldOn vm on name s = Done on' s' /\
    hostlog s' = hostlog s ++
                 (if is_new on oldOn name then [add_call_for on' name] else []) /\
    diags s' = diags s ++
               (if is_gone on name && negb (production s)
                then [invalid_warning vm on name] else []) /\
    production s' = production s /\
    (forall n, n <> name -> lookup_key on' n = lookup_key on n) /\
    isUndef (lookup_key on' name) = isUndef (lookup_key on name) /\
    map fst on' = map fst on.
Proof.
  intros Hty. unfold update_entry, is_new, is_gone, invalid_warning, add_call_for.
  cbv zeta. generalize (normalizeEvent name) as event. intros event.
  destruct (isUndef (lookup_key on name)) eqn:Hcur.
  { unfold warn. monad_unfold. destruct (production s) eqn:Hp; simpl.
    - exists on, s. rewrite !app_nil_r. auto 10.
    - eexists on, _. split; [reflexivity|]. simpl. rewrite app_nil_r. auto 10. }
  destruct (isUndef (lookup_key oldOn name)) eqn:Hold.
  { unfold createFnInvoker, createOnceHandler, alloc. simpl. monad_unfold.
    destruct (isUndef (default VUndef (prop_fns (heap s) (lookup_key on name))));
      destruct (ev_once event); simpl;
      eexists _, _; (split; [reflexivity|]); simpl;
      rewrite ?lookup_set_key_eq, ?app_nil_r;
      (split; [reflexivity|]); (split; [reflexivity|]); (split; [reflexivity|]).
    all: split; [intros n Hn; now rewrite ?lookup_set_key_ne by congruence|].
    all: rewrite ?lookup_set_key_eq, ?keys_set_key, ?lookup_set_key_eq; auto.
    all: now rewrite lookup_set_key_eq. }
  simpl. destruct (strict_eq (lookup_key on name) (lookup_key oldOn name)) eqn:Heq;
    simpl.
  { exists on, s. rewrite !app_nil_r. auto 10. }
  destruct (lookup_key oldOn name) as [| | | | |r] eqn:Eold;
    simpl in Hty, Hold; try contradiction; try discriminate.
  unfold set_fns. monad_unfold.
  eexists _, _. split; [reflexivity|]. simpl. rewrite !app_nil_r.
  rewrite lookup_set_key_eq, keys_set_key by assumption.
  repeat split; auto.
  intros n Hn. now rewrite lookup_set_key_ne by congruence.
Qed.

Lemma is_new_ext (on1 on2 oldOn : declmap) (n : string) :
  isUndef (lookup_key on1 n) = isUndef (lookup_key on2 n) ->
  is_new on1 oldOn n = is_new on2 oldOn n.
Proof. intros H. unfold is_new. now rewrite H. Qed.

Lemma update_loop_trace (oldOn : declmap) (vm : option component) :
  declmap_typed oldOn ->
  forall names on s,
  List.NoDup names ->
  exists on' s',
    update_loop trace_host oldOn vm names on s = Done on' s' /\
    hostlog s' = hostlog s ++
                 map (add_call_for on') (List.filter (is_new on oldOn) names) /\
    diags s' = diags s ++
               (if production s then []
                else map (invalid_warning vm on) (List.filter (is_gone on) names)) /\
    production s' = production s /\
    (forall n, ~ In n names -> lookup_key on' n = lookup_key on n) /\
    (forall n, isUndef (lookup_key on' n) = isUndef (lookup_key on n)) /\
    map fst on' = map fst on /\
    (forall n, is_gone on n = true -> lookup_key on' n = lookup_key on n).
Proof.
  intros Hty. induction names as [|name rest IH]; intros on s Hnd.
  - exists on, s. simpl. destruct (production s) eqn:Hp; rewrite ?app_nil_r;
      auto 12.
  - inversion Hnd as [|? ? Hnotin Hnd']; subst.
    destruct (update_entry_trace oldOn vm on name s (lookup_key_typed _ _ Hty))
      as (on1 & s1 & Hrun1 & Hlog1 & Hdiag1 & Hprod1 & Hother1 & Hund1 & Hkeys1).
    destruct (IH on1 s1 Hnd')
      as (on' & s' & Hrun & Hlog & Hdiag & Hprod & Hother & Hund & Hkeys & Hgone).
    assert (Hund1' : forall n, isUndef (lookup_key on1 n) = isUndef (lookup_key on n)).
    { intros n. destruct (String.eqb_spec n name) as [->|Hne]; [assumption|].
      now rewrite Hother1. }
    exists on', s'. split; [simpl; unfold bind; now rewrite Hrun1|].
    split; [|split; [|split; [congruence|split; [|split; [|split; [congruence|]]]]]].
    + rewrite Hlog, Hlog1, <- app_assoc. f_equal. simpl.
      rewrite (filter_ext _ (is_new on oldOn))
        by (intros n; now apply is_new_ext).
      destruct (is_new on oldOn name); [|reflexivity]. simpl. f_equal.
      unfold add_call_for. now rewrite (Hother name Hnotin).
    + rewrite Hdiag, Hdiag1, Hprod1, <- app_assoc. f_equal. simpl.
      destruct (production s); simpl.
      * now rewrite andb_false_r.
      * rewrite andb_true_r.
        rewrite (filter_ext (is_gone on1) (is_gone on))
          by (intros n; unfold is_gone; apply Hund1').
        assert (Hmap : map (invalid_warning vm on1) (List.filter (is_gone on) rest)
                       = map (invalid_warning vm on) (List.filter (is_gone on) rest)).
        { apply map_ext_in. intros n Hn. apply filter_In in Hn as [Hn _].
          unfold invalid_warning. rewrite Hother1; [reflexivity|].
          intros ->. contradiction. }
        rewrite Hmap. now destruct (is_gone on name).
    + intros n Hn. simpl in Hn. rewrite Hother by tauto. apply Hother1.
      intros ->. tauto.
    + intros n. now rewrite Hund.
    + intros n Hn. unfold is_gone in *.
      assert (Hn1 : lookup_key on1 n = lookup_key on n).
      { destruct (String.eqb_spec n name) as [->|Hne]; [|now apply Hother1].
        destruct (update_entry_gone trace_host oldOn vm on name s Hn) as (s2 & H2).
        rewrite Hrun1 in H2. now inversion H2. }
      rewrite <- Hn1. apply Hgone. unfold is_gone. now rewrite Hn1.
Qed.

Lemma remove_loop_trace (on oldOn : declmap) (names : list string) :
  forall s,
  exists s',
    for_each (remove_entry trace_host on oldOn) names s = Done tt s' /\
    hostlog s' = hostlog s ++
                 map (remove_call_for oldOn) (List.filter (is_gone on) names) /\
    diags s' = diags s /\ heap s' = heap s /\ production s' = production s.
Proof.
  induction names as [|name rest IH]; intros s.
  - exists s. simpl. rewrite app_nil_r. auto.
  - cbn [for_each List.filter]. unfold bind, remove_entry at 1, is_gone at 1.
    destruct (isUndef (lookup_key on name)).
    + destruct (IH (add_hostcall (remove_call_for oldOn name) s))
        as (s' & Hrun & Hlog & Hd & Hh & Hp).
      exists s'. cbn [trace_host h_remove]. unfold modify.
      fold (remove_call_for oldOn name). rewrite Hrun. split; [reflexivity|].
      rewrite Hlog. cbn [map add_hostcall hostlog]. rewrite <- app_assoc. auto.
    + destruct (IH s) as (s' & Hrun & Hlog & Hd & Hh & Hp).
      exists s'. unfold ret. rewrite Hrun. auto.
Qed.

(** One pass against a recording host, in full: the new keys with a
    value and no old value are added in order, each with the handler the
    pass stored back into the new map; then the old keys for which the
    new map has no value are removed, each with the old handler; the
    keys without a value are reported. *)
Lemma updateListeners_trace (on oldOn : declmap) (vm : option component)
    (s : state) :
  List.NoDup (map fst on) -> declmap_typed oldOn ->
  exists on' s',
    updateListeners trace_host on oldOn vm s = Done on' s' /\
    hostlog s' = hostlog s ++
                 map (add_call_for on') (List.filter (is_new on oldOn) (map fst on)) ++
                 map (remove_call_for oldOn) (List.filter (is_gone on) (map fst oldOn)) /\
    diags s' = diags s ++
               (if production s then []
                else map (invalid_warning vm on)
                         (List.filter (is_gone on) (map fst on))) /\
    (forall n, isUndef (lookup_key on' n) = isUndef (lookup_key on n)) /\
    map fst on' = map fst on /\
    (forall n, is_gone on n = true -> lookup_key on' n = lookup_key on n).
Proof.
  intros Hnd Hty. unfold updateListeners.
  destruct (update_loop_trace oldOn vm Hty (map fst on) on s Hnd)
    as (on' & s1 & Hrun1 & Hlog1 & Hdiag1 & Hprod1 & _ & Hund & Hkeys & Hgone).
  destruct (remove_loop_trace on' oldOn (map fst oldOn) s1)
    as (s' & Hrun2 & Hlog2 & Hdiag2 & _).
  exists on', s'. unfold bind. rewrite Hrun1, Hrun2.
  split; [reflexivity|]. split; [|split; [congruence|repeat split; assumption]].
  rewrite Hlog2, Hlog1, <- app_assoc. do 2 f_equal.
  f_equal. apply filter_ext. intros n. unfold is_gone. apply Hund.
Qed.





(** C1 (amended). A key of the new map whose value is [undefined] or
    [null] is reported (outside production builds) and skipped: no [add]
    call is issued for it, its entry is left as it is, and the pass goes
    on with the other entries.  The entry does not protect the name,
    though: when the old map has the same key, the second loop issues a
    [remove] call for it. *)
Theorem invalid_entry_is_skipped_and_name_removed
    (on oldOn : declmap) (vm : option component) (s : state) (name : string) :
  List.NoDup (map fst on) -> declmap_typed oldOn ->
  In name (map fst on) -> isUndef (lookup_key on name) = true ->
  exists on' s',
    updateListeners trace_host on oldOn vm s = Done on' s' /\
    hostlog s' = hostlog s ++
                 map (add_call_for on') (List.filter (is_new on oldOn) (map fst on)) ++
                 map (remove_call_for oldOn) (List.filter (is_gone on) (map fst oldOn)) /\
    ~ In name (List.filter (is_new on oldOn) (map fst on)) /\
    lookup_key on' name = lookup_key on name /\
    (production s = false -> In (invalid_warning vm on name) (diags s')) /\
    (production s = true -> diags s' = diags s) /\
    (In name (map fst oldOn) <->
     In name (List.filter (is_gone on) (map fst oldOn))) /\
    (In name (map fst oldOn) -> In (remove_call_for oldOn name) (hostlog s')).
Proof.
  intros Hnd Hty Hin Hgone.
  destruct (updateListeners_trace on oldOn vm s Hnd Hty)
    as (on' & s' & Hrun & Hlog & Hdiag & _ & _ & Hsame).
  exists on', s'. split; [assumption|]. split; [assumption|].
  split; [|split; [|split; [|split; [|split]]]].
  - intros H. apply filter_In in H as [_ Hnew]. unfold is_new in Hnew.
    rewrite Hgone in Hnew. discriminate.
  - now apply Hsame.
  - intros Hp. rewrite Hdiag, Hp. apply in_or_app. right.
    apply in_map. apply filter_In. now split.
  - intros Hp. rewrite Hdiag, Hp. apply app_nil_r.
  - split.
    + intros Hold. apply filter_In. now split.
    + intros H. now apply filter_In in H as [H _].
  - intros Hold. rewrite Hlog. apply in_or_app. right. apply in_or_app. right.
    apply in_map. apply filter_In. now split.
Qed.

Lemma invalid_entry_is_skipped_and_name_removed_witness :
  let s0 := fresh_state [callback [] (Return VUndef)] false in
  let pass1 := updateListeners trace_host [("a", VObj 0)] [] (Some Vm) in
  let oldOn := value_after [] pass1 s0 in
  let s1 := state_after pass1 s0 in
  exists on' s2,
    updateListeners trace_host [("a", VUndef); ("b", VObj 0)] oldOn (Some Vm) s1
    = Done on' s2 /\
    In (invalid_warning (Some Vm) [("a", VUndef); ("b", VObj 0)] "a") (diags s2) /\
    In (remove_call_for oldOn "a") (hostlog s2).
Proof.
  intros s0 pass1 oldOn s1.
  destruct (invalid_entry_is_skipped_and_name_removed
              [("a", VUndef); ("b", VObj 0)] oldOn (Some Vm) s1 "a")
    as (on' & s2 & Hrun & _ & _ & _ & Hwarn & _ & _ & Hrem).
  - repeat constructor; simpl; intuition discriminate.
  - repeat constructor.
  - simpl. tauto.
  - reflexivity.
  - exists on', s2. split; [exact Hrun|]. split.
    + apply Hwarn. reflexivity.
    + apply Hrem. vm_compute. left. reflexivity.
Defined.

(** C1, as stated, fails: with the same name in the old map, the entry
    without a value makes the pass issue a [remove] call for that name
    (and with the component as host the listener is unsubscribed); in a
    production build nothing is reported. *)
Lemma invalid_entry_triggers_remove :
  let s0 := fresh_state [callback [] (Return VUndef)] false in
  let pass1 := updateListeners trace_host [("a", VObj 0)] [] (Some Vm) in
  let s1 := state_after pass1 s0 in
  let on1 := value_after [] pass1 s0 in
  let s2 := state_after (updateListeners trace_host [("a", VUndef)] on1 (Some Vm)) s1 in
  let p0 := fresh_state [callback [] (Return VUndef)] true in
  let b1 := state_after (updateComponentListeners [("a", VObj 0)] None) p0 in
  let bon1 := value_after [] (updateComponentListeners [("a", VObj 0)] None) p0 in
  let b2 := state_after (updateComponentListeners [("a", VNull)] (Some bon1)) b1 in
  on1 = [("a", VObj 1)] /\
  hostlog s1 = [HAdd "a" (VObj 1) false false VUndef] /\
  hostlog s2 = [HAdd "a" (VObj 1) false false VUndef; HRemove "a" (VObj 1) false] /\
  subscribed b1 "a" = [VObj 1] /\
  subscribed b2 "a" = [] /\
  diags b2 = [].
Proof. vm_compute. repeat split. Qed.

(** ** Replacing the payload of a registered handler *)

(** An invoker with a single callback as payload applies that callback,
    whatever it was when the invoker was created. *)
Lemma invoker_calls_payload (n : nat) (r : ref) (vm this : option component)
    (fns x : value) (args : list value) (s : state) :
  heap s !! r = Some (Object (Invoker vm) fns x) ->
  as_array (heap s) fns = None ->
  call (S n) (VObj r) this args s =
  invokeWithErrorHandling (call n) fns None args vm "v-on handler" s.
Proof.
  intros Hr Harr. cbn [call]. unfold invoker. monad_unfold. rewrite Hr.
  cbn [obj_fns]. rewrite Hr. cbn [obj_fns]. now rewrite Harr.
Qed.

(** When the handler registered for a name is an invoker and the new map
    brings a different callback, the pass reaches no host primitive,
    keeps the invoker in the new map, and from then on the invoker
    applies the new callback. *)
Lemma changed_callback_reaches_invoker (h : host) (oldOn on : declmap)
    (vm vm0 : option component) (name : string) (s : state) (r : ref)
    (fns0 x : value) :
  heap s !! r = Some (Object (Invoker vm0) fns0 x) ->
  lookup_key oldOn name = VObj r ->
  isUndef (lookup_key on name) = false ->
  strict_eq (lookup_key on name) (VObj r) = false ->
  as_array (heap s) (lookup_key on name) = None ->
  exists s',
    update_entry h oldOn vm on name s = Done (set_key on name (VObj r)) s' /\
    hostlog s' = hostlog s /\ _events s' = _events s /\
    forall n this args,
      call (S n) (VObj r) this args s' =
      invokeWithErrorHandling (call n) (lookup_key on name) None args vm0
                              "v-on handler" s'.
Proof.
  intros Hr Hold Hcur Hne Harr.
  eexists. split; [now apply update_entry_changed|].
  split; [reflexivity|]. split; [reflexivity|].
  intros n this args. apply invoker_calls_payload with (x := x).
  - simpl. rewrite lookup_alter_eq, Hr. reflexivity.
  - destruct (lookup_key on name) as [| | | | |c]; try reflexivity.
    simpl in *. rewrite lookup_alter_ne; [assumption|].
    intros ->. now rewrite Nat.eqb_refl in Hne.
Qed.

(** For a name registered without the once modifier the third branch
    does what it is meant to: no host call, the invoker kept, and the
    next invocation reaches the new callback. *)
Example invoker_gets_new_callback :
  let s0 := fresh_state [callback [] (Return VUndef);
                         callback [] (Return VUndef)] false in
  let pass1 := updateComponentListeners [("click", VObj 0)] None in
  let on1 := value_after [] pass1 s0 in
  let s1 := state_after pass1 s0 in
  let pass2 := updateComponentListeners [("click", VObj 1)] (Some on1) in
  let on2 := value_after [] pass2 s1 in
  let s2 := state_after pass2 s1 in
  let s3 := state_after (emit 2 "click" []) s2 in
  on1 = [("click", VObj 2)] /\ on2 = [("click", VObj 2)] /\
  subscribed s2 "click" = [VObj 2] /\
  obj_fns <$> heap s2 !! 2 = Some (VObj 1) /\
  calls s3 = [Call 1 None []].
Proof. vm_compute. repeat split. Qed.

(** C2, at the input where the code departs from it.  The name
    ["~click"] is in both maps with different callbacks: the pass issues
    no host call and keeps the registered handler, but the handler is
    the once adapter, so the new payload is written onto the adapter
    while the invoker it wraps keeps the old callback, and the next
    invocation of the registered handler calls the old callback. *)
Theorem once_adapter_keeps_stale_callback :
  let s0 := fresh_state [callback [] (Return VUndef);
                         callback [] (Return VUndef)] false in
  let pass1 := updateComponentListeners [("~click", VObj 0)] None in
  let on1 := value_after [] pass1 s0 in
  let s1 := state_after pass1 s0 in
  let pass2 := updateComponentListeners [("~click", VObj 1)] (Some on1) in
  let on2 := value_after [] pass2 s1 in
  let s2 := state_after pass2 s1 in
  let s3 := state_after (emit 3 "click" []) s2 in
  on1 = [("~click", VObj 3)] /\ on2 = [("~click", VObj 3)] /\
  subscribed s1 "click" = [VObj 3] /\ subscribed s2 "click" = [VObj 3] /\
  obj_code <$> heap s2 !! 3 = Some (OnceHandler "click" (VObj 2) (Some Vm)) /\
  obj_fns <$> heap s2 !! 3 = Some (VObj 1) /\
  obj_code <$> heap s2 !! 2 = Some (Invoker (Some Vm)) /\
  obj_fns <$> heap s2 !! 2 = Some (VObj 0) /\
  calls s3 = [Call 0 None []].
Proof. vm_compute. repeat split. Qed.

(** ** The once adapter of the reconciler *)


Lemma emit_nothing_subscribed (apply : applier) (event : string)
    (args : list value) (s : state) :
  subscribed s event = [] ->
  exists s', Vue_emit apply event args s = Done Vm s' /\
             heap s' = heap s /\ _events s' = _events s /\ calls s' = calls s.
Proof.
  intros Hsub. rewrite Vue_emit_snapshot, Hsub.
  destruct (emit_tip_done event s) as (s1 & Htip & Hh & He & Hc & _).
  exists s1. unfold bind. rewrite Htip. simpl. auto.
Qed.





(** ** One-shot subscriptions *)

Lemma keeps_objects_refl (h : gmap ref object) : keeps_objects h h.
Proof. intros r o H _. exact H. Qed.

Lemma keeps_objects_trans (h1 h2 h3 : gmap ref object) :
  keeps_objects h1 h2 -> keeps_objects h2 h3 -> keeps_objects h1 h3.
Proof.
  intros H12 H23 r o H Hna. apply H23; [|assumption]. now apply H12.
Qed.

Lemma keeps_objects_alter (h : gmap ref object) (a : ref) (l : list value) :
  keeps_objects h (alter (arr_set l) a h).
Proof.
  intros r o H Hna. destruct (decide (a = r)) as [->|Hne].
  - rewrite lookup_alter_eq, H. simpl. f_equal. unfold arr_set.
    unfold not_array in Hna. now destruct (obj_code o).
  - now rewrite lookup_alter_ne.
Qed.

Lemma keeps_objects_insert (h : gmap ref object) (n : ref) (o' : object) :
  h !! n = None -> keeps_objects h (<[n := o']> h).
Proof.
  intros Hn r o H _. rewrite lookup_insert_ne; [assumption|]. congruence.
Qed.

Lemma on_one_keeps_objects (s s' : state) (event : string) (fn : value) :
  bus_inv s -> on_one event fn s = Done tt s' -> keeps_objects (heap s) (heap s').
Proof.
  intros I Hrun. destruct (on_one_effect event fn s) as (s1 & Hrun1 & Heff).
  rewrite Hrun in Hrun1. inversion Hrun1; subst s1; clear Hrun1.
  destruct (_events s !! event) as [[a|]|]; destruct Heff as (Hh & _); rewrite Hh.
  - apply keeps_objects_alter.
  - apply keeps_objects_insert, bus_inv_fresh, I.
  - apply keeps_objects_insert, bus_inv_fresh, I.
Qed.




(** Allocating a function object leaves the bus as it is. *)
Lemma alloc_function (s : state) (o : object) :
  bus_inv s -> not_array o ->
  exists s', alloc o s = Done (next s) s' /\
             bus_inv s' /\ heap s' = <[next s := o]> (heap s) /\
             _events s' = _events s /\ calls s' = calls s /\
             (forall e, subscribed s' e = subscribed s e) /\
             keeps_objects (heap s) (heap s').
Proof.
  intros I Hna. eexists. split; [reflexivity|].
  pose proof (bus_inv_fresh s I) as Hfresh.
  assert (Helems : forall e a, _events s !! e = Some (Some a) ->
                               elems (<[next s := o]> (heap s)) a = elems (heap s) a).
  { intros e a H. unfold elems. rewrite lookup_insert_ne; [reflexivity|].
    pose proof (slot_lt_next s e a I H). lia. }
  assert (Hsub : forall e, subscribed (set_next (S (next s))
                             (set_heap (<[next s := o]> (heap s)) s)) e
                           = subscribed s e).
  { intros e. unfold subscribed. simpl.
    destruct (_events s !! e) as [[a|]|] eqn:E; try reflexivity.
    now apply (Helems e). }
  split; [|simpl; repeat split; auto using keeps_objects_insert].
  constructor; simpl.
  - intros e a H. unfold is_arr. rewrite lookup_insert_ne.
    + eapply inv_arr; eauto.
    + pose proof (slot_lt_next s e a I H). lia.
  - apply I.
  - intros r. destruct (decide (next s = r)) as [<-|Hne]; [lia|].
    rewrite lookup_insert_ne by assumption. intros H.
    pose proof (inv_next s I r H). lia.
  - intros e. rewrite Hsub. apply I.
Qed.


Lemma subscribed_ext (s s' : state) (e : string) :
  heap s' = heap s -> _events s' = _events s -> subscribed s' e = subscribed s e.
Proof. intros Hh He. unfold subscribed. now rewrite Hh, He. Qed.










(** * Further properties of the two files *)

(** ** Tokens written from a descriptor *)

(** X1. Writing the markers of a descriptor in front of a name that does
    not itself start with a marker, and normalizing the token, gives the
    descriptor back: the three flags and the name are recovered for each
    of the eight combinations. *)
Theorem normalizeEvent_decodes_encoded (passive once capture : bool)
    (name : string) :
  starts_with_marker name = false ->
  normalizeEvent (encode_event (Descr name once capture passive))
  = Descr name once capture passive.
Proof.
  intros Hno. rewrite normalizeEvent_unfold. unfold encode_event, markers.
  cbn [ev_name ev_once ev_capture ev_passive].
  assert (H : strip_marker "&" name = (false, name) /\
              strip_marker "~" name = (false, name) /\
              strip_marker "!" name = (false, name)).
  { destruct name as [|c r]; [repeat split; reflexivity|].
    simpl in Hno. apply orb_false_iff in Hno as [Hno H3].
    apply orb_false_iff in Hno as [H1 H2].
    repeat split; now apply strip_marker_none. }
  destruct H as (H1 & H2 & H3).
  unfold normalize_in_order.
  destruct passive, once, capture; cbv [String.append]; simpl;
    rewrite ?H1, ?H2, ?H3; reflexivity.
Qed.

Lemma normalizeEvent_decodes_encoded_witness :
  starts_with_marker "click" = false /\
  normalizeEvent "&~click" = Descr "click" true false true.
Proof.
  split; [reflexivity|].
  apply (normalizeEvent_decodes_encoded true true false "click"). reflexivity.
Defined.

(** ** The hook flag after a subscription *)

Lemma on_one_hook_flag (event : string) (fn : value) (s : state) :
  exists s', on_one event fn s = Done tt s' /\
             _hasHookEvent s' = _hasHookEvent s || hookRE_test event.
Proof.
  unfold on_one, push, alloc. monad_unfold.
  destruct (_events s !! event) as [[a|]|]; destruct (hookRE_test event);
    eexists; (split; [reflexivity|]); simpl;
    rewrite ?orb_true_r, ?orb_false_r; reflexivity.
Qed.

Lemma for_each_on_one_hook_flag (fn : value) (names : list string) :
  forall s,
  exists s', for_each (fun e => on_one e fn) names s = Done tt s' /\
             _hasHookEvent s' = _hasHookEvent s || existsb hookRE_test names.
Proof.
  induction names as [|e names IH]; intros s.
  - exists s. simpl. now rewrite orb_false_r.
  - destruct (on_one_hook_flag e fn s) as (s1 & H1 & Hf1).
    destruct (IH s1) as (s' & H' & Hf').
    exists s'. simpl. unfold bind. rewrite H1. split; [exact H'|].
    now rewrite Hf', Hf1, orb_assoc.
Qed.

(** X2. [$on] and [$once] always return normally, and afterwards
    [_hasHookEvent] is the earlier flag or'ed with "one of the given
    names starts with [hook:]": names that do not match never set the
    flag, and a subscription never clears it. *)
Theorem subscription_sets_hook_flag_exactly :
  (forall event fn s,
      exists s', Vue_on event fn s = Done Vm s' /\
                 _hasHookEvent s' =
                 _hasHookEvent s || existsb hookRE_test (names_of event)) /\
  (forall event fn s,
      exists s', Vue_once event fn s = Done Vm s' /\
                 _hasHookEvent s' = _hasHookEvent s || hookRE_test event).
Proof.
  split.
  - intros event fn s. unfold Vue_on, bind. destruct event as [e|l].
    + destruct (on_one_hook_flag e fn s) as (s' & H & Hf).
      exists s'. rewrite H. split; [reflexivity|]. simpl.
      now rewrite orb_false_r.
    + destruct (for_each_on_one_hook_flag fn l s) as (s' & H & Hf).
      exists s'. rewrite H. split; [reflexivity|exact Hf].
  - intros event fn s. unfold Vue_once, bind, alloc, Vue_on, bind.
    destruct (on_one_hook_flag event (VObj (next s))
                (set_next (S (next s))
                   (set_heap (<[next s := Object (OnceOn event fn) VUndef fn]>
                                (heap s)) s)))
      as (s' & H & Hf).
    exists s'. rewrite H. split; [reflexivity|exact Hf].
Qed.

(** ** Clearing and emitting *)

Lemma subscribed_cleared (s : state) (event : string) :
  subscribed (set_events ∅ s) event = [].
Proof. unfold subscribed. simpl. now rewrite lookup_empty. Qed.

Lemma off_one_name_only (event : string) (fn : value) (s : state) :
  truthy fn = false ->
  exists s1, off_one event fn s = Done tt s1 /\
             heap s1 = heap s /\ calls s1 = calls s /\ next s1 = next s /\
             subscribed s1 event = [] /\
             slot_truthy (_events s1 !! event) = false /\
             (forall e, e <> event -> _events s1 !! e = _events s !! e).
Proof.
  intros Hfn. unfold off_one. monad_unfold. rewrite Hfn. simpl.
  destruct (_events s !! event) as [[a|]|] eqn:E.
  - eexists. split; [reflexivity|]. unfold subscribed. simpl.
    rewrite lookup_insert_eq. repeat split; auto.
    intros e He. now rewrite lookup_insert_ne.
  - exists s. unfold subscribed. rewrite E. repeat split; auto.
  - exists s. unfold subscribed. rewrite E. repeat split; auto.
Qed.

(** X3. Whatever the state of the bus: after [$off()] an emission of any
    name invokes no callback; after [$off(name)] an emission of [name]
    invokes no callback while the sequences of the other names are as
    before, and a later [$on(name, fn)] starts a new sequence holding
    just [fn]. *)
Theorem cleared_names_invoke_nothing :
  (forall apply event args s,
      exists s2,
        (Vue_off None ;; Vue_emit apply event args) s = Done Vm s2 /\
        calls s2 = calls s /\ heap s2 = heap s /\ _events s2 = ∅) /\
  (forall apply name args s,
      exists s1 s2,
        Vue_off (Some (EvStr name, VUndef)) s = Done Vm s1 /\
        Vue_emit apply name args s1 = Done Vm s2 /\
        calls s2 = calls s /\
        (forall e, e <> name -> subscribed s1 e = subscribed s e) /\
        (forall fn, exists s3, Vue_on (EvStr name) fn s1 = Done Vm s3 /\
                               subscribed s3 name = [fn])).
Proof.
  split.
  - intros apply event args s.
    destruct (emit_nothing_subscribed apply event args (set_events ∅ s)
                (subscribed_cleared s event)) as (s2 & Hrun & Hh & He & Hc).
    exists s2. split; [|auto].
    unfold bind at 1. unfold Vue_off, bind, modify, ret. exact Hrun.
  - intros apply name args s.
    destruct (off_one_name_only name VUndef s eq_refl)
      as (s1 & Hoff & Hh & Hc & Hn & Hsub & Hslot & Hother).
    destruct (emit_nothing_subscribed apply name args s1 Hsub)
      as (s2 & Hrun & _ & _ & Hc2).
    exists s1, s2. split; [unfold Vue_off, bind; now rewrite Hoff|].
    split; [exact Hrun|]. split; [congruence|]. split.
    + intros e He. unfold subscribed. now rewrite Hother, Hh.
    + intros fn. destruct (on_one_effect name fn s1) as (s3 & Hon & Heff).
      exists s3. split; [unfold Vue_on, bind; now rewrite Hon|].
      unfold subscribed.
      destruct (_events s1 !! name) as [[a|]|]; [discriminate| |];
        destruct Heff as (Hh3 & He3 & _); rewrite He3, Hh3, lookup_insert_eq;
        unfold elems; now rewrite lookup_insert_eq.
Qed.

(** ** Names are case-sensitive *)



(** ** Reconciling a map against an equal one *)

Lemma strict_eq_refl (v : value) : strict_eq v v = true.
Proof.
  destruct v; simpl; auto using Z.eqb_refl, String.eqb_refl, Nat.eqb_refl.
  now destruct b.
Qed.

Lemma lookup_key_defined (m : declmap) (name : string) :
  Forall (fun kv => isUndef (snd kv) = false) m ->
  In name (map fst m) -> isUndef (lookup_key m name) = false.
Proof.
  induction 1 as [|[k v] m Hv _ IH]; simpl; [contradiction|].
  intros [->|Hin].
  - now rewrite String.eqb_refl.
  - destruct (String.eqb k name); [assumption|now apply IH].
Qed.

Lemma update_loop_unchanged (h : host) (on oldOn : declmap)
    (vm : option component) (names : list string) (s : state) :
  (forall name, In name names ->
                isUndef (lookup_key on name) = false /\
                strict_eq (lookup_key on name) (lookup_key oldOn name) = true) ->
  update_loop h oldOn vm names on s = Done on s.
Proof.
  induction names as [|name rest IH]; intros H; simpl; [reflexivity|].
  destruct (H name (or_introl eq_refl)) as [Hdef Heq].
  unfold bind. rewrite (update_entry_unchanged h oldOn vm on name s Hdef Heq).
  apply IH. intros n Hn. apply H. now right.
Qed.

Lemma remove_loop_nothing (h : host) (on oldOn : declmap)
    (names : list string) (s : state) :
  (forall name, In name names -> isUndef (lookup_key on name) = false) ->
  for_each (remove_entry h on oldOn) names s = Done tt s.
Proof.
  induction names as [|name rest IH]; intros H; simpl; [reflexivity|].
  unfold bind, remove_entry at 1. rewrite (H name (or_introl eq_refl)).
  unfold ret at 1. apply IH. intros n Hn. apply H. now right.
Qed.

(** X5. Reconciling a new map against an old map that associates the
    same handlers with the same names (in whatever key order, no value
    missing) does nothing, for every host: no primitive of the host is
    reached, no object is created or modified, nothing is reported, and
    the new map is left as it is. *)
Theorem updateListeners_equal_maps_is_noop (h : host) (on oldOn : declmap)
    (vm : option component) (s : state) :
  Forall (fun kv => isUndef (snd kv) = false) on ->
  Forall (fun kv => isUndef (snd kv) = false) oldOn ->
  (forall name, lookup_key on name = lookup_key oldOn name) ->
  updateListeners h on oldOn vm s = Done on s.
Proof.
  intros Hon Hold Heq. unfold updateListeners, bind.
  rewrite update_loop_unchanged.
  - rewrite remove_loop_nothing; [reflexivity|].
    intros name Hin. rewrite Heq. now apply lookup_key_defined.
  - intros name Hin. split; [now apply lookup_key_defined|].
    rewrite Heq. apply strict_eq_refl.
Qed.

Lemma updateListeners_equal_maps_is_noop_witness :
  let s0 := fresh_state [callback [] (Return VUndef);
                         callback [] (Return VUndef)] false in
  let pass1 := updateComponentListeners [("a", VObj 0); ("~b", VObj 1)] None in
  let on1 := value_after [] pass1 s0 in
  let s1 := state_after pass1 s0 in
  on1 = [("a", VObj 2); ("~b", VObj 5)] /\
  updateListeners bus_host [("~b", VObj 5); ("a", VObj 2)] on1 (Some Vm) s1
  = Done [("~b", VObj 5); ("a", VObj 2)] s1.
Proof.
  intros s0 pass1 on1 s1. split; [reflexivity|].
  apply (updateListeners_equal_maps_is_noop bus_host
           [("~b", VObj 5); ("a", VObj 2)] on1 (Some Vm) s1).
  - repeat constructor.
  - repeat constructor.
  - intros name. change on1 with [("a", VObj 2); ("~b", VObj 5)].
    cbn [lookup_key].
    destruct (String.eqb "~b" name) eqn:H1;
      destruct (String.eqb "a" name) eqn:H2; try reflexivity.
    apply String.eqb_eq in H1, H2. congruence.
Defined.

(** ** Subscribing and unsubscribing again *)

Lemma truthy_defined (v : value) : truthy v = true -> isUndef v = false.
Proof. now destruct v. Qed.

(** Unsubscribing a callback that the last entry of the sequence
    matches removes exactly that entry. *)
Lemma off_one_last_match (s : state) (event : string) (cbs0 : list value)
    (x fn : value) :
  subscribed s event = cbs0 ++ [x] ->
  Forall (fun cb => isUndef cb = false) (cbs0 ++ [x]) ->
  truthy fn = true ->
  is_match (heap s) fn x = true ->
  exists a,
    _events s !! event = Some (Some a) /\
    off_one event fn s = Done tt (set_elems a cbs0 s) /\
    subscribed (set_elems a cbs0 s) event = cbs0.
Proof.
  intros Hsub Hdef Hfn Hx.
  assert (Hdef' : Forall (fun cb => isUndef cb = false) (subscribed s event))
    by now rewrite Hsub.
  destruct (off_one_callback s event fn Hfn Hdef')
    as [[Hnone _] | (a & l1 & z & l2 & Hslot & Hcbs & Hz & Hl2 & Hoff & Hsub')].
  - rewrite Hsub in Hnone. apply Forall_app in Hnone as [_ Hw].
    apply Forall_cons in Hw as [Hw _]. congruence.
  - rewrite Hsub in Hcbs. destruct l2 as [|y l2 _] using rev_ind.
    + apply app_inj_tail in Hcbs as [-> _]. rewrite app_nil_r in *.
      exists a. auto.
    + exfalso. rewrite app_comm_cons, app_assoc in Hcbs.
      apply app_inj_tail in Hcbs as [_ <-].
      apply Forall_app in Hl2 as [_ Hy]. apply Forall_cons in Hy as [Hy _].
      congruence.
Qed.

(** X6. On a well-formed bus, [$on(name, fn)] followed by
    [$off(name, fn)] restores the sequence of every name: the entry just
    appended is the one removed, whatever else the sequence holds
    (earlier subscriptions of the same callback included). *)
Theorem on_then_off_restores (s : state) (event : string) (fn : value) :
  bus_inv s -> truthy fn = true ->
  exists s1 s2,
    Vue_on (EvStr event) fn s = Done Vm s1 /\
    subscribed s1 event = subscribed s event ++ [fn] /\
    Vue_off (Some (EvStr event, fn)) s1 = Done Vm s2 /\
    (forall e, subscribed s2 e = subscribed s e) /\
    bus_inv s2.
Proof.
  intros I Hfn. pose proof (truthy_defined fn Hfn) as Hdef.
  destruct (on_one_effect event fn s) as (s1 & Hrun & _).
  pose proof (on_one_subscribed s s1 event fn I Hrun) as Hsub.
  destruct (on_one_bus_inv s s1 event fn I Hdef Hrun) as (I1 & _).
  assert (Hsub1 : subscribed s1 event = subscribed s event ++ [fn]).
  { rewrite Hsub. unfold sub_one. now rewrite String.eqb_refl. }
  assert (Hall : Forall (fun cb => isUndef cb = false) (subscribed s event ++ [fn])).
  { rewrite <- Hsub1. apply I1. }
  assert (Hm : is_match (heap s1) fn fn = true).
  { unfold is_match. now rewrite strict_eq_refl. }
  destruct (off_one_last_match s1 event _ fn fn Hsub1 Hall Hfn Hm)
    as (a & Hslot & Hoff & _).
  destruct (set_elems_bus_inv s1 event a (subscribed s event) I1 Hslot
              (inv_defined s I event)) as (I2 & Hsub2 & _).
  exists s1, (set_elems a (subscribed s event) s1).
  split; [unfold Vue_on, bind; now rewrite Hrun|].
  split; [assumption|].
  split; [unfold Vue_off, bind; now rewrite Hoff|].
  split; [|assumption].
  intros e. rewrite Hsub2.
  destruct (String.eqb_spec e event) as [->|Hne]; [reflexivity|].
  rewrite Hsub. unfold sub_one. apply String.eqb_neq in Hne. now rewrite Hne.
Qed.

Lemma on_then_off_restores_witness :
  let s := state_after (Vue_on (EvStr "e") (VObj 0) ;; Vue_on (EvStr "e") (VObj 1))
             (fresh_state [callback [] (Return VUndef);
                           callback [] (Return VUndef)] false) in
  exists s1 s2,
    Vue_on (EvStr "e") (VObj 0) s = Done Vm s1 /\
    subscribed s1 "e" = [VObj 0; VObj 1; VObj 0] /\
    Vue_off (Some (EvStr "e", VObj 0)) s1 = Done Vm s2 /\
    subscribed s2 "e" = [VObj 0; VObj 1].
Proof.
  intros s.
  destruct (on_then_off_restores s "e" (VObj 0)) as (s1 & s2 & H1 & H2 & H3 & H4 & _).
  - destruct (busops_refine (heap (fresh_state [callback [] (Return VUndef);
                                                callback [] (Return VUndef)] false))
                [Subscribe (EvStr "e") (VObj 0); Subscribe (EvStr "e") (VObj 1)]
                ltac:(repeat constructor) _ _
                (refines_init _ (fresh_state_inv _ false)))
      as (s' & Hrun & I & _).
    vm_compute in Hrun. inversion Hrun; subst s'. exact I.
  - reflexivity.
  - exists s1, s2. split; [exact H1|]. split; [exact H2|].
    split; [exact H3|]. rewrite H4. reflexivity.
Defined.

Lemma Vue_once_subscribed (s : state) (event : string) (fn : value) :
  bus_inv s ->
  exists s1,
    Vue_once event fn s = Done Vm s1 /\ bus_inv s1 /\
    heap s1 !! next s = Some (Object (OnceOn event fn) VUndef fn) /\
    same_subs (subscribed s1) (sub_one event (VObj (next s)) (subscribed s)) /\
    keeps_objects (heap s) (heap s1).
Proof.
  intros I. unfold Vue_once.
  destruct (alloc_function s (Object (OnceOn event fn) VUndef fn) I Logic.I)
    as (sa & Halloc & Ia & Hha & Hea & Hca & Hsa & Hka).
  destruct (on_one_effect event (VObj (next s)) sa) as (s1 & Hrun & _).
  pose proof (on_one_subscribed sa s1 event _ Ia Hrun) as Hsub.
  destruct (on_one_bus_inv sa s1 event (VObj (next s)) Ia eq_refl Hrun)
    as (I1 & _).
  pose proof (on_one_keeps_objects sa s1 event _ Ia Hrun) as Hk1.
  exists s1. unfold bind. rewrite Halloc. unfold Vue_on, bind. rewrite Hrun.
  split; [reflexivity|]. split; [assumption|]. split; [|split].
  - apply Hk1; [|exact Logic.I]. rewrite Hha. apply lookup_insert_eq.
  - intros e. rewrite Hsub. unfold sub_one. now rewrite Hsa.
  - eapply keeps_objects_trans; eauto.
Qed.

(** X7. On a well-formed bus, [$once(name, cb)] followed by
    [$off(name, cb)] before any emission restores the sequence of every
    name: the wrapper is found through its [fn] property, which holds
    the original callback, so [cb] can no longer be reached through
    it. *)
Theorem once_then_off_restores (s : state) (event : string) (cb : value) :
  bus_inv s -> truthy cb = true ->
  exists s1 s2,
    Vue_once event cb s = Done Vm s1 /\
    subscribed s1 event = subscribed s event ++ [VObj (next s)] /\
    Vue_off (Some (EvStr event, cb)) s1 = Done Vm s2 /\
    (forall e, subscribed s2 e = subscribed s e) /\
    bus_inv s2.
Proof.
  intros I Hcb.
  destruct (Vue_once_subscribed s event cb I) as (s1 & Hrun & I1 & Hw & Hsub & _).
  assert (Hsub1 : subscribed s1 event = subscribed s event ++ [VObj (next s)]).
  { rewrite Hsub. unfold sub_one. now rewrite String.eqb_refl. }
  assert (Hall : Forall (fun x => isUndef x = false)
                        (subscribed s event ++ [VObj (next s)])).
  { rewrite <- Hsub1. apply I1. }
  assert (Hm : is_match (heap s1) cb (VObj (next s)) = true).
  { unfold is_match. simpl. rewrite Hw. simpl.
    rewrite strict_eq_refl. apply orb_true_r. }
  destruct (off_one_last_match s1 event _ _ cb Hsub1 Hall Hcb Hm)
    as (a & Hslot & Hoff & _).
  destruct (set_elems_bus_inv s1 event a (subscribed s event) I1 Hslot
              (inv_defined s I event)) as (I2 & Hsub2 & _).
  exists s1, (set_elems a (subscribed s event) s1).
  split; [assumption|]. split; [assumption|].
  split; [unfold Vue_off, bind; now rewrite Hoff|].
  split; [|assumption].
  intros e. rewrite Hsub2.
  destruct (String.eqb_spec e event) as [->|Hne]; [reflexivity|].
  rewrite Hsub. unfold sub_one. apply String.eqb_neq in Hne. now rewrite Hne.
Qed.

Lemma once_then_off_restores_witness :
  let s := fresh_state [callback [] (Return VUndef)] false in
  exists s1 s2,
    Vue_once "e" (VObj 0) s = Done Vm s1 /\
    subscribed s1 "e" = [VObj 1] /\
    Vue_off (Some (EvStr "e", VObj 0)) s1 = Done Vm s2 /\
    subscribed s2 "e" = [].
Proof.
  intros s.
  destruct (once_then_off_restores s "e" (VObj 0))
    as (s1 & s2 & H1 & H2 & H3 & H4 & _).
  - apply fresh_state_inv.
  - reflexivity.
  - exists s1, s2. split; [exact H1|]. split; [exact H2|].
    split; [exact H3|]. rewrite H4. reflexivity.
Defined.

(** ** Names that an operation does not mention *)

Lemma fold_sub_one_other (fn : value) (names : list string) (e : string) :
  ~ In e names ->
  forall b, fold_left (fun b n => sub_one n fn b) names b e = b e.
Proof.
  induction names as [|n names IH]; intros Hn b; simpl; [reflexivity|].
  simpl in Hn. rewrite IH by tauto. unfold sub_one.
  destruct (String.eqb_spec e n) as [->|Hne]; [tauto|reflexivity].
Qed.

Lemma fold_unsub_one_other h (fn : value) (names : list string) (e : string) :
  ~ In e names ->
  forall b, fold_left (fun b n => unsub_one h n fn b) names b e = b e.
Proof.
  induction names as [|n names IH]; intros Hn b; simpl; [reflexivity|].
  simpl in Hn. rewrite IH by tauto. unfold unsub_one.
  destruct (String.eqb_spec e n) as [->|Hne]; [tauto|reflexivity].
Qed.

(** X8. On a well-formed bus, [$on] and [$off] with a name or an array
    of names return normally and leave the sequence of every other name
    as it was; they never change the [fn] property of any object, and
    the bus stays well formed. *)
Theorem bus_operations_touch_only_their_names :
  (forall event fn s e,
      bus_inv s -> isUndef fn = false -> ~ In e (names_of event) ->
      exists s', Vue_on event fn s = Done Vm s' /\
                 subscribed s' e = subscribed s e /\
                 (forall v, prop_fn (heap s') v = prop_fn (heap s) v) /\
                 bus_inv s') /\
  (forall event fn s e,
      bus_inv s -> ~ In e (names_of event) ->
      exists s', Vue_off (Some (event, fn)) s = Done Vm s' /\
                 subscribed s' e = subscribed s e /\
                 (forall v, prop_fn (heap s') v = prop_fn (heap s) v) /\
                 bus_inv s').
Proof.
  split.
  - intros event fn s e I Hfn Hn.
    destruct (run_busop_refines (heap s) (Subscribe event fn) s _
                (refines_init s I) Hfn) as (s' & Hrun & I' & Hsub & Hp).
    exists s'. split.
    { simpl in Hrun. unfold bind in Hrun.
      destruct (Vue_on event fn s) as [[] s0| |]; try discriminate.
      now inversion Hrun. }
    split; [|split; assumption].
    rewrite Hsub. simpl. now apply fold_sub_one_other.
  - intros event fn s e I Hn.
    destruct (run_busop_refines (heap s) (Unsubscribe (Some (event, fn))) s _
                (refines_init s I) Logic.I) as (s' & Hrun & I' & Hsub & Hp).
    exists s'. split.
    { simpl in Hrun. unfold bind in Hrun.
      destruct (Vue_off (Some (event, fn)) s) as [[] s0| |]; try discriminate.
      now inversion Hrun. }
    split; [|split; assumption].
    rewrite Hsub. simpl. now apply fold_unsub_one_other.
Qed.

Lemma bus_operations_touch_only_their_names_witness :
  let s := state_after (Vue_on (EvStr "a") (VObj 0))
             (fresh_state [callback [] (Return VUndef)] false) in
  exists s', Vue_off (Some (EvArr ["b"; "c"], VUndef)) s = Done Vm s' /\
             subscribed s' "a" = [VObj 0].
Proof.
  intros s.
  destruct bus_operations_touch_only_their_names as [Hon Hoff].
  destruct (Hon (EvStr "a") (VObj 0)
              (fresh_state [callback [] (Return VUndef)] false) "z"
              (fresh_state_inv _ false) eq_refl)
    as (s1 & H1 & _ & _ & I1).
  { simpl. intros [H|[]]. discriminate. }
  assert (Hs : s = s1).
  { unfold s, state_after. now rewrite H1. }
  destruct (Hoff (EvArr ["b"; "c"]) VUndef s "a") as (s' & H2 & H3 & _).
  - now rewrite Hs.
  - simpl. intros [H|[H|[]]]; discriminate.
  - exists s'. split; [exact H2|]. rewrite H3. reflexivity.
Defined.

(** ** What an invoker does with its payload *)

Lemma call_invoker (n : nat) (r : ref) (vm this : option component)
    (fns x : value) (args : list value) (s : state) :
  heap s !! r = Some (Object (Invoker vm) fns x) ->
  call (S n) (VObj r) this args s = invoker (call n) r vm args s.
Proof. intros Hr. simpl. monad_unfold. now rewrite Hr. Qed.

Lemma invoker_array (apply : applier) (r : ref) (vm : option component)
    (fns x : value) (l : list value) (args : list value) (s : state) :
  heap s !! r = Some (Object (Invoker vm) fns x) ->
  as_array (heap s) fns = Some l ->
  invoker apply r vm args s =
  (for_each (fun cb => invokeWithErrorHandling apply cb None args vm "v-on handler" ;;
                       ret tt) l ;;
   ret VUndef) s.
Proof.
  intros Hr Harr. unfold invoker, bind, gets. rewrite Hr. cbn [obj_fns].
  now rewrite Harr.
Qed.

Lemma invoker_loop_quiet (n : nat) (vm : option component)
    (args : list value) (info : string) (l : list value) :
  forall s, Forall (quiet_fn (heap s)) l ->
  exists s',
    for_each (fun cb => invokeWithErrorHandling (call (S n)) cb None args vm info ;;
                        ret tt) l s = Done tt s' /\
    heap s' = heap s /\ _events s' = _events s /\
    calls s' = calls s ++ calls_of None args l /\
    diags s' = diags s ++ flat_map (fault_of (heap s) vm info) l.
Proof.
  induction l as [|cb l IH]; intros s Hq.
  - exists s. simpl. rewrite !app_nil_r. auto.
  - apply Forall_cons in Hq as [(r & fin & x & y & -> & Hr) Hq].
    cbn [for_each]. unfold bind, invokeWithErrorHandling.
    rewrite (call_quiet n r fin x y _ _ s Hr).
    destruct fin as [v|v].
    + destruct (IH (add_call (Call r None args) s) Hq)
        as (s' & H' & Hh & He & Hc & Hd).
      exists s'. unfold ret at 1. split; [exact H'|]. simpl in *. rewrite Hr.
      rewrite Hc, Hd, <- app_assoc. auto.
    + destruct (IH (add_diag (Handled (Thrown v) vm info)
                      (add_call (Call r None args) s)) Hq)
        as (s' & H' & Hh & He & Hc & Hd).
      exists s'. unfold ret at 1. split; [exact H'|]. simpl in *. rewrite Hr.
      rewrite Hc, Hd, <- !app_assoc. auto.
Qed.

(** X9. An invoker ignores the context it is called with and applies its
    payload with context [null] and its own arguments.  With a single
    callback as payload it returns the callback's result, or [undefined]
    after recording the fault when the callback throws; with an array as
    payload it applies every element in order, records the faults of
    those that throw, and returns [undefined]. *)
Theorem invoker_applies_payload_with_null_context :
  (forall n r vm0 f fin x y z this args s,
      heap s !! r = Some (Object (Invoker vm0) (VObj f) x) ->
      heap s !! f = Some (Object (UserFn [] fin) y z) ->
      call (S (S n)) (VObj r) this args s =
      match fin with
      | Return v => Done v (add_call (Call f None args) s)
      | Throw v =>
          Done VUndef (add_diag (Handled (Thrown v) vm0 "v-on handler")
                                (add_call (Call f None args) s))
      end) /\
  (forall n r vm0 a l x this args s,
      heap s !! r = Some (Object (Invoker vm0) (VObj a) x) ->
      as_array (heap s) (VObj a) = Some l ->
      Forall (quiet_fn (heap s)) l ->
      exists s',
        call (S (S n)) (VObj r) this args s = Done VUndef s' /\
        calls s' = calls s ++ calls_of None args l /\
        diags s' = diags s ++ flat_map (fault_of (heap s) vm0 "v-on handler") l /\
        heap s' = heap s /\ _events s' = _events s).
Proof.
  split.
  - intros n r vm0 f fin x y z this args s Hr Hf.
    rewrite (invoker_calls_payload (S n) r vm0 this (VObj f) x args s Hr)
      by (simpl; now rewrite Hf).
    unfold invokeWithErrorHandling.
    rewrite (call_quiet n f fin y z None args s Hf). now destruct fin.
  - intros n r vm0 a l x this args s Hr Harr Hq.
    rewrite (call_invoker (S n) r vm0 this (VObj a) x args s Hr).
    destruct (invoker_loop_quiet n vm0 args "v-on handler" l s Hq)
      as (s' & Hrun & Hh & He & Hc & Hd).
    exists s'. split; [|auto].
    rewrite (invoker_array _ r vm0 (VObj a) x l args s Hr Harr).
    unfold bind at 1. now rewrite Hrun.
Qed.

Lemma invoker_applies_payload_with_null_context_witness :
  let s := state_after (createFnInvoker (VObj 0) (Some Vm))
             (fresh_state [callback [] (Return (VNum 7))] false) in
  call 2 (VObj 1) (Some Vm) [VStr "x"] s
  = Done (VNum 7) (add_call (Call 0 None [VStr "x"]) s).
Proof.
  intros s.
  destruct invoker_applies_payload_with_null_context as [H _].
  apply (H 0 1 (Some Vm) 0 (Return (VNum 7)) VUndef VUndef VUndef
           (Some Vm) [VStr "x"] s); reflexivity.
Defined.

(** ** Reconciliation passes of the component *)

Lemma pass_frame_refl (T : list string) (W : ref -> Prop) (s : state) :
  pass_frame T W s s.
Proof. repeat split; auto. Qed.

Lemma pass_frame_trans (T : list string) (W : ref -> Prop) (s1 s2 s3 : state) :
  pass_frame T W s1 s2 -> pass_frame T W s2 s3 -> pass_frame T W s1 s3.
Proof.
  intros (Ha & Hb & Hp & Hc & Hn) (Ha' & Hb' & Hp' & Hc' & Hn'). repeat split.
  - intros e He. now rewrite Ha', Ha.
  - intros r o Hr Hna Hu. apply Hb'; auto.
  - intros v. now rewrite Hp', Hp.
  - congruence.
  - lia.
Qed.

Lemma pass_frame_same (T : list string) (W : ref -> Prop) (s s' : state) :
  heap s' = heap s -> _events s' = _events s -> calls s' = calls s ->
  next s' = next s ->
  pass_frame T W s s'.
Proof.
  intros Hh He Hc Hn. repeat split; [| | |assumption|lia].
  - intros e _. now apply subscribed_ext.
  - intros r o Hr _ _. now rewrite Hh.
  - intros v. now rewrite Hh.
Qed.

Lemma steps_ret {A} (T : list string) (W : ref -> Prop) (a : A) (Q : A -> Prop) :
  Q a -> steps T W (ret a) Q.
Proof.
  intros H s Hs. exists a, s. split; [reflexivity|].
  split; [assumption|]. split; [apply pass_frame_refl|assumption].
Qed.

Lemma steps_bind {A B} (T : list string) (W : ref -> Prop) (m : M A)
    (k : A -> M B) (Q : A -> Prop) (R : B -> Prop) :
  steps T W m Q -> (forall a, Q a -> steps T W (k a) R) ->
  steps T W (bind m k) R.
Proof.
  intros Hm Hk s Hs. destruct (Hm s Hs) as (a & s1 & H1 & I1 & F1 & Hq).
  destruct (Hk a Hq s1 I1) as (b & s2 & H2 & I2 & F2 & Hr).
  exists b, s2. unfold bind. rewrite H1. split; [assumption|].
  split; [assumption|]. split; [|assumption].
  eapply pass_frame_trans; eassumption.
Qed.

Lemma steps_gets {A} (T : list string) (W : ref -> Prop) (f : state -> A) :
  steps T W (gets f) (fun a => exists s, pass_inv s /\ a = f s).
Proof.
  intros s Hs. exists (f s), s. split; [reflexivity|].
  split; [assumption|]. split; [apply pass_frame_refl|eauto].
Qed.

Lemma steps_weaken {A} (T : list string) (W : ref -> Prop) (m : M A)
    (Q Q' : A -> Prop) :
  steps T W m Q -> (forall a, Q a -> Q' a) -> steps T W m Q'.
Proof.
  intros Hm HQ s Hs. destruct (Hm s Hs) as (a & s' & H & I' & F & Hq).
  exists a, s'. auto.
Qed.

Lemma steps_for_each {A} (T : list string) (W : ref -> Prop) (body : A -> M unit)
    (l : list A) :
  (forall x, In x l -> steps T W (body x) (fun _ => True)) ->
  steps T W (for_each body l) (fun _ => True).
Proof.
  induction l as [|x l IH]; intros Hb; simpl.
  - now apply steps_ret.
  - eapply steps_bind; [apply Hb; now left|].
    intros u _. apply IH. intros y Hy. apply Hb. now right.
Qed.

Lemma bus_inv_ext (s s' : state) :
  heap s' = heap s -> _events s' = _events s -> next s' = next s ->
  bus_inv s -> bus_inv s'.
Proof.
  intros Hh He Hn I. constructor.
  - intros e a. rewrite He, Hh. apply I.
  - intros e1 e2 a. rewrite He. apply I.
  - intros r. rewrite Hh, Hn. apply I.
  - intros e. rewrite (subscribed_ext s s' e Hh He). apply I.
Qed.

Lemma on_one_target (event : string) (fn : value) (s s' : state) :
  on_one event fn s = Done tt s' ->
  target s' = target s /\ calls s' = calls s /\ next s <= next s'.
Proof.
  unfold on_one, push, alloc. monad_unfold.
  destruct (_events s !! event) as [[a|]|]; destruct (hookRE_test event);
    intros [= <-]; simpl; repeat split; lia.
Qed.

Lemma off_one_target (event : string) (fn : value) (s s' : state) :
  off_one event fn s = Done tt s' ->
  target s' = target s /\ calls s' = calls s /\ next s' = next s /\
  keeps_objects (heap s) (heap s').
Proof.
  unfold off_one. monad_unfold.
  destruct (_events s !! event) as [[a|]|];
    try (intros [= <-]; repeat split; apply keeps_objects_refl).
  destruct (negb (truthy fn));
    [intros [= <-]; repeat split; apply keeps_objects_refl|].
  destruct (scan _ _ _ _); try discriminate; intros [= <-]; repeat split;
    try apply keeps_objects_refl.
  simpl. apply keeps_objects_alter.
Qed.

Lemma prop_fn_insert_function (h : gmap ref object) (n : ref) (o : object)
    (v : value) :
  h !! n = None -> obj_fn o = VUndef -> prop_fn (<[n := o]> h) v = prop_fn h v.
Proof.
  intros Hn Ho. destruct v; simpl; try reflexivity. f_equal.
  destruct (decide (n = r)) as [->|Hne].
  - now rewrite lookup_insert_eq, Hn.
  - now rewrite lookup_insert_ne.
Qed.

Lemma prop_fn_set_fns (h : gmap ref object) (r : ref) (x v : value) :
  prop_fn (alter (fun o => Object (obj_code o) x (obj_fn o)) r h) v = prop_fn h v.
Proof.
  destruct v as [| | | | |r']; simpl; try reflexivity. f_equal.
  destruct (decide (r = r')) as [->|Hne].
  - rewrite lookup_alter_eq. now destruct (h !! r').
  - now rewrite lookup_alter_ne.
Qed.

Lemma steps_alloc (T : list string) (W : ref -> Prop) (o : object) :
  not_array o -> obj_fn o = VUndef -> steps T W (alloc o) (fun _ => True).
Proof.
  intros Hna Hfn s [I Ht].
  destruct (alloc_function s o I Hna) as (s' & Hrun & I' & Hh & _ & Hc & Hsub & Hk).
  assert (Hp : forall v, prop_fn (heap s') v = prop_fn (heap s) v).
  { intros v. rewrite Hh. apply prop_fn_insert_function; [|assumption].
    now apply bus_inv_fresh. }
  exists (next s), s'. split; [assumption|].
  assert (target s' = target s /\ next s <= next s') as [Ht' Hn].
  { unfold alloc in Hrun. inversion Hrun. simpl. split; [reflexivity|lia]. }
  split; [split; congruence|]. split; [|exact Logic.I].
  repeat split; auto.
Qed.

Lemma steps_add (T : list string) (W : ref -> Prop) (event : string) (fn : value) :
  isUndef fn = false -> In event T ->
  steps T W (add event fn) (fun _ => True).
Proof.
  intros Hfn HT s [I Ht]. unfold add, bind, gets. rewrite Ht.
  destruct (on_one_effect event fn s) as (s' & Hrun & _).
  destruct (on_one_bus_inv s s' event fn I Hfn Hrun) as (I' & Hp).
  destruct (on_one_target _ _ _ _ Hrun) as (Ht' & Hc & Hn).
  exists tt, s'. unfold Vue_on, bind. rewrite Hrun. split; [reflexivity|].
  split; [split; congruence|]. split; [|exact Logic.I].
  repeat split.
  - intros e He. rewrite (on_one_subscribed s s' event fn I Hrun e).
    unfold sub_one. destruct (String.eqb_spec e event); [subst; contradiction|reflexivity].
  - intros r o Hr Hna _.
    now apply (on_one_keeps_objects s s' event fn I Hrun).
  - assumption.
  - assumption.
  - assumption.
Qed.

Lemma steps_remove (T : list string) (W : ref -> Prop) (event : string) (fn : value) :
  In event T -> steps T W (remove event fn) (fun _ => True).
Proof.
  intros HT s [I Ht]. unfold remove, bind, gets. rewrite Ht.
  destruct (off_one_refines (heap s) s _ event fn (refines_init s I))
    as (s' & Hrun & I' & Hsub & Hp).
  destruct (off_one_target _ _ _ _ Hrun) as (Ht' & Hc & Hn & Hk).
  exists tt, s'. unfold Vue_off, bind. rewrite Hrun. split; [reflexivity|].
  split; [split; congruence|]. split; [|exact Logic.I].
  repeat split.
  - intros e He. rewrite (Hsub e).
    unfold unsub_one. destruct (String.eqb_spec e event); [subst; contradiction|reflexivity].
  - intros r o Hr Hna _. now apply Hk.
  - assumption.
  - assumption.
  - lia.
Qed.

Lemma set_fns_bus_inv (s : state) (r : ref) (x : value) :
  bus_inv s ->
  let s' := set_heap (alter (fun o => Object (obj_code o) x (obj_fn o)) r (heap s)) s in
  bus_inv s' /\ forall e, subscribed s' e = subscribed s e.
Proof.
  intros I.
  set (f := fun o => Object (obj_code o) x (obj_fn o)).
  assert (Harr : forall a, is_arr (alter f r (heap s)) a <-> is_arr (heap s) a).
  { intros a. unfold is_arr. destruct (decide (r = a)) as [->|Hne].
    - rewrite lookup_alter_eq. destruct (heap s !! a) as [[c y z]|]; simpl.
      + split; intros (l & u & v & H); inversion H; subst; eauto.
      + split; intros (l & u & v & H); discriminate.
    - now rewrite lookup_alter_ne. }
  assert (Helems : forall a, elems (alter f r (heap s)) a = elems (heap s) a).
  { intros a. unfold elems. destruct (decide (r = a)) as [->|Hne].
    - rewrite lookup_alter_eq. now destruct (heap s !! a) as [[[] y z]|].
    - now rewrite lookup_alter_ne. }
  assert (Hsub : forall e, subscribed
            (set_heap (alter f r (heap s)) s) e = subscribed s e).
  { intros e. unfold subscribed. simpl.
    destruct (_events s !! e) as [[a|]|]; auto. }
  simpl. split; [|exact Hsub].
  constructor; simpl.
  - intros e a H. apply Harr. eapply inv_arr; eauto.
  - apply I.
  - intros a. destruct (decide (r = a)) as [->|Hne].
    + rewrite lookup_alter_eq, fmap_is_Some. apply I.
    + rewrite lookup_alter_ne by assumption. apply I.
  - intros e. rewrite Hsub. apply I.
Qed.

Lemma steps_set_fns (T : list string) (W : ref -> Prop) (r : ref) (x : value) :
  W r -> steps T W (set_fns (VObj r) x) (fun _ => True).
Proof.
  intros Hold s [I Ht]. simpl. unfold modify.
  destruct (set_fns_bus_inv s r x I) as (I' & Hsub).
  eexists tt, _. split; [reflexivity|]. split; [split; [exact I'|exact Ht]|].
  split; [|exact Logic.I]. repeat split.
  - intros e _. apply Hsub.
  - intros r' o Hr _ Hu. simpl. rewrite lookup_alter_ne; [assumption|].
    intros ->. now apply Hu.
  - intros v. apply prop_fn_set_fns.
  - simpl. lia.
Qed.

Lemma steps_warn (T : list string) (W : ref -> Prop) (msg : string)
    (vm : option component) :
  steps T W (warn msg vm) (fun _ => True).
Proof.
  intros s [I Ht]. unfold warn, modify.
  eexists tt, _. split; [reflexivity|].
  split; [split; [|exact Ht]|].
  - now apply (bus_inv_ext s).
  - split; [|exact Logic.I]. now apply pass_frame_same.
Qed.

Lemma handler_defined_obj (v : value) :
  handler_or_missing v -> isUndef v = false -> exists r, v = VObj r.
Proof. destruct v; simpl; try contradiction; try discriminate; eauto. Qed.

Lemma prop_fns_defined_obj (h : gmap ref object) (v : value) :
  isUndef (default VUndef (prop_fns h v)) = false -> exists r, v = VObj r.
Proof. destruct v; simpl; try discriminate; eauto. Qed.

Lemma strict_eq_obj (v : value) (r : ref) :
  strict_eq v (VObj r) = true -> v = VObj r.
Proof.
  destruct v; simpl; try discriminate.
  intros H. apply Nat.eqb_eq in H. now subst.
Qed.

Lemma steps_createFnInvoker (T : list string) (W : ref -> Prop) (fns : value)
    (vm : option component) :
  steps T W (createFnInvoker fns vm) (fun i => exists r, i = VObj r).
Proof.
  unfold createFnInvoker.
  eapply steps_bind; [now apply steps_alloc|].
  intros r _. apply steps_ret. eauto.
Qed.

Lemma steps_createOnceHandler (T : list string) (W : ref -> Prop)
    (event : string) (fn : value) :
  steps T W (createOnceHandler event fn) (fun w => exists r, w = VObj r).
Proof.
  unfold createOnceHandler.
  eapply steps_bind; [apply steps_gets|]. intros t _.
  eapply steps_bind; [now apply steps_alloc|].
  intros r _. apply steps_ret. eauto.
Qed.

Lemma steps_update_entry (T : list string) (W : ref -> Prop) (old : declmap)
    (vm : option component) (on : declmap) (name : string) :
  (forall k, handler_or_missing (lookup_key old k)) ->
  (forall r, lookup_key old name = VObj r -> W r) ->
  (is_new on old name = true -> In (ev_name (normalizeEvent name)) T) ->
  steps T W (update_entry bus_host old vm on name)
    (fun on' => map fst on' = map fst on /\
                handler_or_missing (lookup_key on' name) /\
                (forall k, k <> name -> lookup_key on' k = lookup_key on k) /\
                isUndef (lookup_key on' name) = isUndef (lookup_key on name)).
Proof.
  intros Hold HW. unfold update_entry, is_new. cbv zeta.
  generalize (normalizeEvent name). intros event HT.
  cbn [h_add h_createOnceHandler h_remove bus_host].
  destruct (isUndef (lookup_key on name)) eqn:Hcur.
  - eapply steps_bind; [apply steps_gets|]. intros prod _.
    apply steps_bind with (Q := fun _ => True).
    { destruct prod; [now apply steps_ret|apply steps_warn]. }
    intros _ _. apply steps_ret. split; [reflexivity|]. split; [|auto].
    destruct (lookup_key on name); simpl in *; try discriminate; exact I.
  - destruct (isUndef (lookup_key old name)) eqn:Ho.
    all: cbn [negb andb] in HT.
    + set (good := fun p : value * declmap =>
                 (exists r, fst p = VObj r) /\
                 map fst (snd p) = map fst on /\
                 lookup_key (snd p) name = fst p /\
                 forall k, k <> name -> lookup_key (snd p) k = lookup_key on k).
      eapply steps_bind; [apply steps_gets|]. intros fns (s0 & _ & ->).
      apply steps_bind with (Q := good).
      { destruct (isUndef (default VUndef (prop_fns (heap s0) (lookup_key on name))))
          eqn:Hfns.
        - eapply steps_bind; [apply steps_createFnInvoker|].
          intros i Hi. apply steps_ret. unfold good. cbn [fst snd].
          split; [assumption|]. split; [now apply keys_set_key|].
          split; [apply lookup_set_key_eq|].
          intros k Hk. apply lookup_set_key_ne. congruence.
        - apply steps_ret. unfold good. cbn [fst snd].
          split; [eapply prop_fns_defined_obj; eassumption|]. auto. }
      intros p1 (Hobj1 & Hk1 & Hl1 & Hn1).
      apply steps_bind with (Q := good).
      { destruct (ev_once event).
        - eapply steps_bind; [apply steps_createOnceHandler|].
          intros w Hw. apply steps_ret. unfold good. cbn [fst snd].
          split; [assumption|]. split.
          { rewrite keys_set_key; [assumption|].
            rewrite Hl1. now destruct Hobj1 as (r1 & ->). }
          split; [apply lookup_set_key_eq|].
          intros k Hk. rewrite lookup_set_key_ne by congruence. auto.
        - apply steps_ret. unfold good. auto. }
      intros p2 (Hobj2 & Hk2 & Hl2 & Hn2).
      eapply steps_bind.
      { apply steps_add; [|now apply HT]. now destruct Hobj2 as (r2 & ->). }
      intros _ _. apply steps_ret. split; [assumption|].
      rewrite Hl2. destruct Hobj2 as (r2 & ->).
      split; [exact Logic.I|]. split; [assumption|reflexivity].
    + destruct (handler_defined_obj _ (Hold name) Ho) as (r & Hr).
      destruct (negb (strict_eq (lookup_key on name) (lookup_key old name))) eqn:Heq.
      * rewrite Hr. eapply steps_bind; [apply steps_set_fns; now apply HW|].
        intros _ _. apply steps_ret. split; [now apply keys_set_key|].
        rewrite lookup_set_key_eq.
        split; [exact Logic.I|]. split; [|reflexivity].
        intros k Hk. apply lookup_set_key_ne. congruence.
      * apply steps_ret. split; [reflexivity|]. split; [|auto].
        apply Bool.negb_false_iff in Heq. rewrite Hr in Heq.
        now rewrite (strict_eq_obj _ _ Heq).
Qed.

Lemma steps_update_loop (T : list string) (W : ref -> Prop) (old : declmap)
    (vm : option component) (names : list string) :
  (forall k, handler_or_missing (lookup_key old k)) ->
  (forall k r, In k names -> lookup_key old k = VObj r -> W r) ->
  forall on,
  (forall k, In k names -> is_new on old k = true ->
             In (ev_name (normalizeEvent k)) T) ->
  steps T W (update_loop bus_host old vm names on)
    (fun on' => map fst on' = map fst on /\
                (forall k, In k names -> handler_or_missing (lookup_key on' k)) /\
                (forall k, ~ In k names -> lookup_key on' k = lookup_key on k) /\
                forall k, isUndef (lookup_key on' k) = isUndef (lookup_key on k)).
Proof.
  intros Hold. induction names as [|name rest IH]; intros HW on HT.
  - apply steps_ret. split; [reflexivity|]. split; [intros k []|auto].
  - cbn [update_loop].
    eapply steps_bind.
    { apply steps_update_entry; [assumption| |].
      - intros r. apply HW. now left.
      - apply HT. now left. }
    intros on1 (Hk1 & Ht1 & Hn1 & Hu1).
    assert (Hu : forall k, isUndef (lookup_key on1 k) = isUndef (lookup_key on k)).
    { intros k. destruct (string_dec k name) as [->|Hne]; [assumption|].
      now rewrite Hn1. }
    eapply steps_weaken.
    { apply IH.
      - intros k r Hk. apply HW. now right.
      - intros k Hk Hnew. apply HT; [now right|].
        unfold is_new in *. now rewrite <- Hu. }
    intros on2 (Hk2 & Ht2 & Hn2 & Hu2). split; [congruence|]. split; [|split].
    + intros k Hk. destruct (in_dec string_dec k rest) as [Hin|Hout]; [auto|].
      destruct Hk as [<-|Hk]; [|contradiction].
      now rewrite Hn2.
    + intros k Hk. simpl in Hk. rewrite Hn2 by tauto. apply Hn1. intuition.
    + intros k. now rewrite Hu2.
Qed.

Lemma steps_updateListeners (old : declmap) (vm : option component)
    (on : declmap) :
  (forall k, handler_or_missing (lookup_key old k)) ->
  steps (events_of on ++ events_of old) (referenced old)
        (updateListeners bus_host on old vm)
    (fun on' => map fst on' = map fst on /\
                forall k, handler_or_missing (lookup_key on' k)).
Proof.
  intros Hold. unfold updateListeners.
  eapply steps_bind.
  { apply steps_update_loop; [assumption| |].
    - intros k r _ Hr. now exists k.
    - intros k Hk _. apply in_or_app. left. unfold events_of.
      now apply (in_map (fun k => ev_name (normalizeEvent k))). }
  intros on1 (Hk1 & Ht1 & Hn1 & _).
  eapply steps_bind.
  { apply steps_for_each. intros name Hname. unfold remove_entry.
    cbn [h_remove bus_host].
    destruct (isUndef (lookup_key on1 name)); [|now apply steps_ret].
    apply steps_remove. apply in_or_app. right. unfold events_of.
    now apply (in_map (fun k => ev_name (normalizeEvent k))). }
  intros _ _. apply steps_ret. split; [assumption|].
  intros k. destruct (in_dec string_dec k (map fst on)) as [Hin|Hout]; [auto|].
  rewrite Hn1 by assumption. now rewrite lookup_key_absent.
Qed.

(** X10. A reconciliation pass of the component cannot fail.  On a well
    formed bus, and against an old map whose values are handlers or
    missing, [updateComponentListeners] returns normally whatever the
    new map holds; afterwards [target] is [undefined] again, the bus is
    well formed, the map has the keys it had, and every value in it is a
    handler or missing, so it can be the old map of the next pass.  The
    pass invokes no handler, leaves the subscribers of every event that
    no key of the two maps names as they were, changes no [fn] property,
    and writes to no function other than the values of the old map. *)
Theorem component_pass_returns (listeners : declmap)
    (oldListeners : option declmap) (s : state) :
  bus_inv s ->
  (forall k, handler_or_missing (lookup_key (default [] oldListeners) k)) ->
  exists on s',
    updateComponentListeners listeners oldListeners s = Done on s' /\
    bus_inv s' /\ target s' = None /\
    map fst on = map fst listeners /\
    (forall k, handler_or_missing (lookup_key on k)) /\
    pass_frame (events_of listeners ++ events_of (default [] oldListeners))
               (referenced (default [] oldListeners)) s s'.
Proof.
  intros I Hold. unfold updateComponentListeners.
  change (match oldListeners with Some o => o | None => [] end)
    with (default [] oldListeners).
  set (old := default [] oldListeners) in *.
  assert (I1 : pass_inv (set_target (Some Vm) s)).
  { split; [now apply (bus_inv_ext s)|reflexivity]. }
  destruct (steps_updateListeners old (Some Vm) listeners Hold _ I1)
    as (on & s2 & Hrun & [I2 Ht2] & F2 & Hk & Hty).
  exists on, (set_target None s2).
  unfold bind, modify. rewrite Hrun.
  split; [reflexivity|]. split; [now apply (bus_inv_ext s2)|].
  split; [reflexivity|]. split; [assumption|]. split; [assumption|].
  eapply pass_frame_trans; [now apply (pass_frame_same _ _ s)|].
  eapply pass_frame_trans; [exact F2|]. now apply pass_frame_same.
Qed.

Lemma component_pass_returns_witness :
  exists on s',
    updateComponentListeners [("click", VObj 0); ("~done", VNum 7)]
                             (Some [("click", VObj 1); ("gone", VNull)])
      (fresh_state [callback [] (Return VUndef);
                    callback [] (Return VUndef)] false) = Done on s' /\
    bus_inv s' /\ target s' = None /\
    map fst on = ["click"; "~done"].
Proof.
  destruct (component_pass_returns
              [("click", VObj 0); ("~done", VNum 7)]
              (Some [("click", VObj 1); ("gone", VNull)])
              (fresh_state [callback [] (Return VUndef);
                            callback [] (Return VUndef)] false))
    as (on & s' & Hrun & I & Ht & Hk & _).
  - apply fresh_state_inv.
  - intros k. apply lookup_key_typed. repeat constructor.
  - exists on, s'. auto.
Defined.

(** ** A new key of the map reaches the bus *)

Lemma pass_frame_mono (T T' : list string) (W W' : ref -> Prop) (s s' : state) :
  (forall e, In e T -> In e T') -> (forall r, W r -> W' r) ->
  pass_frame T W s s' -> pass_frame T' W' s s'.
Proof.
  intros Hincl HW (Ha & Hb & Hp & Hc & Hn). repeat split; auto.
Qed.


Lemma lookup_key_in (m : declmap) (k : string) (r : ref) :
  lookup_key m k = VObj r -> In (VObj r) (map snd m).
Proof.
  induction m as [|[k0 v0] m IH]; simpl; [discriminate|].
  destruct (String.eqb k0 k); [intros ->; now left|right; auto].
Qed.

Lemma update_loop_app (h : host) (old : declmap) (vm : option component)
    (l1 l2 : list string) :
  forall on s,
  update_loop h old vm (l1 ++ l2) on s
  = bind (update_loop h old vm l1 on) (update_loop h old vm l2) s.
Proof.
  induction l1 as [|name l1 IH]; intros on s; [reflexivity|].
  cbn [app update_loop]. unfold bind.
  destruct (update_entry h old vm on name s) as [on1 s1|e s1|]; try reflexivity.
  rewrite IH. reflexivity.
Qed.




Lemma emit_sole_invoker (n : nat) (event : string) (args : list value)
    (i g : ref) (vm0 : option component) (fin : completion) (x y z : value)
    (s : state) :
  subscribed s event = [VObj i] ->
  heap s !! i = Some (Object (Invoker vm0) (VObj g) x) ->
  heap s !! g = Some (Object (UserFn [] fin) y z) ->
  exists s2,
    emit (S (S n)) event args s = Done Vm s2 /\
    calls s2 = calls s ++ [Call g None args] /\
    heap s2 = heap s /\ _events s2 = _events s.
Proof.
  intros Hsub Hi Hg.
  destruct (emit_tip_done event s) as (st & Htip & Hh & He & Hct & _ & _).
  assert (Hcall : exists s2,
    call (S (S n)) (VObj i) (Some Vm) args st = Done (match fin with
                                                      | Return v => v
                                                      | Throw _ => VUndef
                                                      end) s2 /\
    calls s2 = calls st ++ [Call g None args] /\
    heap s2 = heap st /\ _events s2 = _events st).
  { rewrite (invoker_calls_payload (S n) i vm0 (Some Vm) (VObj g) x args st).
    - unfold invokeWithErrorHandling.
      rewrite (call_quiet n g fin y z None args st) by (now rewrite Hh).
      destruct fin; eexists; (split; [reflexivity|]); auto.
    - now rewrite Hh.
    - simpl. rewrite Hh. now rewrite Hg. }
  destruct Hcall as (s2 & Hcall & Hc2 & Hh2 & He2).
  exists s2. split.
  { unfold emit. rewrite Vue_emit_snapshot. unfold bind at 1. rewrite Htip.
    rewrite Hsub. cbn [invoke_all]. unfold bind, invokeWithErrorHandling.
    now rewrite Hcall. }
  split; [congruence|]. split; congruence.
Qed.



(** ** A changed handler and a removed key *)

Lemma other_events_in (name k : string) (keys : list string) :
  In k keys -> k <> name ->
  In (ev_name (normalizeEvent k)) (other_events name keys).
Proof.
  intros Hk Hne. unfold other_events.
  apply (in_map (fun k => ev_name (normalizeEvent k))).
  apply filter_In. split; [assumption|].
  now apply Bool.negb_true_iff, String.eqb_neq.
Qed.

Lemma other_events_out (name : string) (keys : list string) :
  (forall k, In k keys ->
             ev_name (normalizeEvent k) = ev_name (normalizeEvent name) ->
             k = name) ->
  ~ In (ev_name (normalizeEvent name)) (other_events name keys).
Proof.
  intros Huniq Hin. unfold other_events in Hin.
  apply in_map_iff in Hin as (k & Hev & Hk).
  apply filter_In in Hk as [Hk Hne].
  apply Bool.negb_true_iff, String.eqb_neq in Hne. auto.
Qed.


Lemma lookup_key_present (m : declmap) (k : string) :
  isUndef (lookup_key m k) = false -> In k (map fst m).
Proof.
  intros H. destruct (in_dec string_dec k (map fst m)) as [Hin|Hout]; [assumption|].
  rewrite (lookup_key_absent m k Hout) in H. discriminate.
Qed.

Lemma steps_remove_loop (T : list string) (W : ref -> Prop) (on old : declmap)
    (names : list string) :
  (forall k, In k names -> isUndef (lookup_key on k) = true ->
             In (ev_name (normalizeEvent k)) T) ->
  steps T W (for_each (remove_entry bus_host on old) names) (fun _ => True).
Proof.
  intros HT. apply steps_for_each. intros k Hk. unfold remove_entry.
  cbn [h_remove bus_host].
  destruct (isUndef (lookup_key on k)) eqn:Hu; [|now apply steps_ret].
  apply steps_remove. now apply HT.
Qed.

Lemma updateListeners_changed_key (on old : declmap) (vm vm0 : option component)
    (name : string) (i : ref) (fns0 x : value) (s : state) :
  pass_inv s ->
  (forall k, handler_or_missing (lookup_key old k)) ->
  List.NoDup (map fst on) ->
  lookup_key old name = VObj i ->
  (forall k, lookup_key old k = VObj i -> k = name) ->
  heap s !! i = Some (Object (Invoker vm0) fns0 x) ->
  isUndef (lookup_key on name) = false ->
  strict_eq (lookup_key on name) (VObj i) = false ->
  exists on' s',
    updateListeners bus_host on old vm s = Done on' s' /\
    pass_inv s' /\
    lookup_key on' name = VObj i /\
    heap s' !! i = Some (Object (Invoker vm0) (lookup_key on name) x) /\
    pass_frame (other_events name (map fst on ++ map fst old)) (referenced old) s s'.
Proof.
  intros I0 Hty Hnd Hold Hone Hi Hcur Hne.
  set (T := other_events name (map fst on ++ map fst old)).
  set (W := fun r => referenced old r /\ r <> i).
  assert (HWi : ~ W i) by (intros [_ H]; now apply H).
  assert (Hin : In name (map fst on)) by now apply lookup_key_present.
  destruct (in_split _ _ Hin) as (pre & post & Hsplit).
  assert (Hout : ~ In name (pre ++ post)).
  { rewrite Hsplit in Hnd. now apply List.NoDup_remove_2 in Hnd. }
  assert (HW : forall names k r, ~ In name names -> In k names ->
                                 lookup_key old k = VObj r -> W r).
  { intros names k r Hn Hk Hr. split; [now exists k|].
    intros ->. apply Hn. now rewrite <- (Hone k Hr). }
  assert (Hpre : ~ In name pre) by (intros H; apply Hout, in_or_app; now left).
  assert (Hpost : ~ In name post) by (intros H; apply Hout, in_or_app; now right).
  assert (HTon : forall k, In k (pre ++ post) -> In (ev_name (normalizeEvent k)) T).
  { intros k Hk. apply other_events_in.
    - apply in_or_app. left. rewrite Hsplit.
      apply in_app_or in Hk as [Hk|Hk]; apply in_or_app; [now left|right; now right].
    - intros ->. now apply Hout. }
  (* the keys before [name] *)
  destruct (steps_update_loop T W old vm pre Hty (fun k r => HW pre k r Hpre) on
              (fun k Hk _ => HTon k (in_or_app _ _ _ (or_introl Hk))) s I0)
    as (on2 & s2 & Hrun2 & I2 & F2 & Hk2 & _ & Hl2 & _).
  assert (Hcur2 : lookup_key on2 name = lookup_key on name) by now apply Hl2.
  assert (Hi2 : heap s2 !! i = Some (Object (Invoker vm0) fns0 x)).
  { destruct F2 as (_ & Hh2 & _). now apply Hh2. }
  (* the key [name] *)
  pose proof (update_entry_changed bus_host old vm on2 name s2 i Hold) as Hrun3.
  rewrite Hcur2 in Hrun3. specialize (Hrun3 Hcur Hne).
  set (s3 := set_heap (alter (fun o => Object (obj_code o) (lookup_key on name)
                                              (obj_fn o)) i (heap s2)) s2) in *.
  destruct I2 as [I2 Ht2].
  destruct (set_fns_bus_inv s2 i (lookup_key on name) I2) as (I3 & Hsub3).
  fold s3 in I3, Hsub3.
  assert (F3 : pass_frame T (referenced old) s2 s3).
  { repeat split.
    - intros e _. apply Hsub3.
    - intros r o Hr _ Hu. simpl. rewrite lookup_alter_ne; [assumption|].
      intros ->. apply Hu. now exists name.
    - intros v. apply prop_fn_set_fns.
    - simpl. lia. }
  assert (Hi3 : heap s3 !! i = Some (Object (Invoker vm0) (lookup_key on name) x)).
  { simpl. now rewrite lookup_alter_eq, Hi2. }
  (* the keys after [name] *)
  destruct (steps_update_loop T W old vm post Hty (fun k r => HW post k r Hpost)
              (set_key on2 name (VObj i))
              (fun k Hk _ => HTon k (in_or_app _ _ _ (or_intror Hk)))
              s3 (conj I3 Ht2))
    as (on4 & s4 & Hrun4 & I4 & F4 & Hk4 & _ & Hl4 & _).
  assert (Hl : lookup_key on4 name = VObj i).
  { rewrite Hl4 by assumption. apply lookup_set_key_eq. }
  assert (Hi4 : heap s4 !! i = Some (Object (Invoker vm0) (lookup_key on name) x)).
  { destruct F4 as (_ & Hh4 & _). now apply Hh4. }
  (* the keys of the old map *)
  destruct (steps_remove_loop T W on4 old (map fst old)) with (s := s4)
    as ([] & s5 & Hrun5 & I5 & F5 & _); [|assumption|].
  { intros k Hk Hu. apply other_events_in; [apply in_or_app; now right|].
    intros ->. rewrite Hl in Hu. discriminate. }
  assert (Hi5 : heap s5 !! i = Some (Object (Invoker vm0) (lookup_key on name) x)).
  { destruct F5 as (_ & Hh5 & _). now apply Hh5. }
  assert (Hweak : forall r, W r -> referenced old r) by (now intros r [H _]).
  exists on4, s5. split.
  { unfold updateListeners. rewrite Hsplit.
    unfold bind at 1. rewrite update_loop_app.
    unfold bind at 1. rewrite Hrun2. cbn [update_loop].
    unfold bind at 1. rewrite Hrun3, Hrun4.
    unfold bind. now rewrite Hrun5. }
  split; [assumption|]. split; [assumption|]. split; [assumption|].
  eapply pass_frame_trans; [eapply pass_frame_mono; [| |exact F2]; auto|].
  eapply pass_frame_trans; [exact F3|].
  eapply pass_frame_trans; [eapply pass_frame_mono; [| |exact F4]; auto|].
  eapply pass_frame_mono; [| |exact F5]; auto.
Qed.

Lemma initEvents_bus_inv (listeners : declmap) (s : state) :
  (forall r, is_Some (heap s !! r) -> r < next s) ->
  exists on s', initEvents (Some listeners) s = Done (Some on) s' /\ bus_inv s'.
Proof.
  intros Hnext.
  set (s0 := set_target (Some Vm) (set_hasHookEvent false (set_events ∅ s))).
  assert (I0 : pass_inv s0).
  { split; [|reflexivity]. constructor; simpl.
    - intros e a. now rewrite lookup_empty.
    - intros e1 e2 a. now rewrite lookup_empty.
    - exact Hnext.
    - intros e. unfold subscribed. simpl. rewrite lookup_empty. constructor. }
  destruct (steps_updateListeners [] (Some Vm) listeners (fun _ => Logic.I) s0 I0)
    as (on & s1 & Hrun & [I1 _] & _).
  exists on, (set_target None s1). split.
  - unfold initEvents, updateComponentListeners.
    unfold bind, modify. fold s0. now rewrite Hrun.
  - now apply (bus_inv_ext s1).
Qed.

(** X13. A changed handler is swapped in place.  In a reconciliation
    pass of the component, let the old map hold an invoker under [name]
    (and under no other key) and the new map a different function [g]
    there, whose body does not touch the bus and which is not a value
    of the old map; no other key of the two maps stands for the same
    event, whose only subscriber is the invoker.  Then the pass returns
    without invoking anything; the map holds the old invoker again, the
    subscribers of the event are the same, and the invoker's payload is
    now [g]: emitting the event invokes [g], once, with context [null]
    and the emitted arguments, and nothing else. *)
Theorem changed_handler_is_swapped_in_place (listeners : declmap)
    (oldListeners : option declmap) (name : string) (i g : ref)
    (vm0 : option component) (fns0 x : value) (fin : completion) (y z : value)
    (args : list value) (n : nat) (s : state) :
  bus_inv s ->
  (forall k, handler_or_missing (lookup_key (default [] oldListeners) k)) ->
  List.NoDup (map fst listeners) ->
  lookup_key (default [] oldListeners) name = VObj i ->
  (forall k, lookup_key (default [] oldListeners) k = VObj i -> k = name) ->
  heap s !! i = Some (Object (Invoker vm0) fns0 x) ->
  lookup_key listeners name = VObj g ->
  g <> i ->
  heap s !! g = Some (Object (UserFn [] fin) y z) ->
  ~ referenced (default [] oldListeners) g ->
  subscribed s (ev_name (normalizeEvent name)) = [VObj i] ->
  (forall k, In k (map fst listeners ++ map fst (default [] oldListeners)) ->
             ev_name (normalizeEvent k) = ev_name (normalizeEvent name) ->
             k = name) ->
  exists on s1 s2,
    updateComponentListeners listeners oldListeners s = Done on s1 /\
    lookup_key on name = VObj i /\
    subscribed s1 (ev_name (normalizeEvent name)) = [VObj i] /\
    heap s1 !! i = Some (Object (Invoker vm0) (VObj g) x) /\
    calls s1 = calls s /\
    emit (S (S n)) (ev_name (normalizeEvent name)) args s1 = Done Vm s2 /\
    calls s2 = calls s ++ [Call g None args].
Proof.
  intros I Hty Hnd Hold Hone Hi Hcur Hgi Hg Hunref Hsub Huniq.
  unfold updateComponentListeners.
  change (match oldListeners with Some o => o | None => [] end)
    with (default [] oldListeners).
  set (old := default [] oldListeners) in *.
  set (e := ev_name (normalizeEvent name)) in *.
  assert (I1 : pass_inv (set_target (Some Vm) s)).
  { split; [now apply (bus_inv_ext s)|reflexivity]. }
  destruct (updateListeners_changed_key listeners old (Some Vm) vm0 name i fns0 x
              _ I1 Hty Hnd Hold Hone Hi)
    as (on & s1 & Hrun & [I2 Ht2] & Hl & Hi1 & (Hs1 & Hh1 & _ & Hc1 & _)).
  { now rewrite Hcur. }
  { rewrite Hcur. simpl. now apply Nat.eqb_neq. }
  rewrite Hcur in Hi1.
  assert (Hsub1 : subscribed (set_target None s1) e = [VObj i]).
  { change (subscribed s1 e = [VObj i]). rewrite Hs1; [exact Hsub|].
    now apply other_events_out. }
  destruct (emit_sole_invoker n e args i g vm0 fin x y z (set_target None s1))
    as (s2 & Hemit & Hc2 & _); [exact Hsub1|exact Hi1| |].
  { simpl. apply Hh1; [exact Hg|exact Logic.I|exact Hunref]. }
  exists on, (set_target None s1), s2.
  unfold bind, modify. rewrite Hrun.
  split; [reflexivity|]. split; [assumption|]. split; [assumption|].
  split; [assumption|]. split; [exact Hc1|]. split; [assumption|].
  rewrite Hc2. simpl. now rewrite Hc1.
Qed.

Lemma changed_handler_is_swapped_in_place_witness :
  let s := state_after (initEvents (Some [("close", VObj 0)]))
             (fresh_state [callback [] (Return VUndef);
                           callback [] (Return (VNum 2))] true) in
  exists on s1 s2,
    updateComponentListeners [("close", VObj 1)] (Some [("close", VObj 2)]) s
    = Done on s1 /\
    lookup_key on "close" = VObj 2 /\
    subscribed s1 "close" = [VObj 2] /\
    emit 2 "close" [VStr "now"] s1 = Done Vm s2 /\
    calls s2 = [Call 1 None [VStr "now"]].
Proof.
  intros s.
  destruct (changed_handler_is_swapped_in_place
              [("close", VObj 1)] (Some [("close", VObj 2)]) "close" 2 1
              (Some Vm) (VObj 0) VUndef (Return (VNum 2)) VUndef VUndef
              [VStr "now"] 0 s)
    as (on & s1 & s2 & Hrun & Hl & Hsub & _ & _ & Hemit & Hcalls).
  - destruct (initEvents_bus_inv [("close", VObj 0)]
                (fresh_state [callback [] (Return VUndef);
                              callback [] (Return (VNum 2))] true))
      as (on0 & s0 & Hrun0 & I0).
    { apply (inv_next _ (fresh_state_inv _ true)). }
    vm_compute in Hrun0. inversion Hrun0; subst s0. exact I0.
  - intros k. apply lookup_key_typed. repeat constructor.
  - repeat constructor. intros [].
  - reflexivity.
  - intros k H. cbn [from_option id lookup_key] in H.
    destruct (String.eqb_spec "close" k); [auto|discriminate].
  - reflexivity.
  - reflexivity.
  - discriminate.
  - reflexivity.
  - intros [k H]. apply lookup_key_in in H. simpl in H.
    now destruct H as [[=]|[]].
  - reflexivity.
  - simpl. intros k [<-|[<-|[]]] _; reflexivity.
  - exists on, s1, s2. auto 10.
Defined.



